(** * libHttpClient: the WinRT WebSocket provider

    A shallow embedding of [Source/WebSocket/WinRT/winrt_websocket.cpp]
    and the properties of its connect, send, receive and disconnect
    paths.

    Conventions of the embedding.
    - An [HRESULT] is a signed 32-bit integer, kept as a [Z]; the
      conversion from an unsigned 32-bit value is written out
      ([to_int32]).
    - A nullable pointer is an [option]; a session handle
      ([hc_websocket_handle_t]) is a nullable key into the store of
      sessions of the process.
    - A function of the source that dereferences a pointer returns an
      [option]: [None] stands for the undefined behaviour of a null or
      dangling dereference.
    - C++ exceptions are explicit: a fallible call of the WinRT projection
      yields an [outcome], and [try]/[catch] blocks are matches on it.
    - The task scheduler ([BeginAsync], [ScheduleAsync], [CompleteAsync])
      and the transport's completion callbacks are outside the file; they
      are the events of a step function on the state of the process. *)

From Stdlib Require Import ZArith List String Ascii Bool Lia.
From Stdlib Require Import Strings.Byte.
From Stdlib Require Import Sorted.
From stdpp Require Import base option list gmap strings.

Local Open Scope Z_scope.

(** ** Result codes *)

Module HResult.

Definition HRESULT := Z.

(** Conversion of an unsigned 32-bit value to [HRESULT] (a [long]). *)
Definition to_int32 (u : Z) : HRESULT := (u + 2 ^ 31) mod 2 ^ 32 - 2 ^ 31.

Definition S_OK : HRESULT := 0.
Definition E_FAIL : HRESULT := to_int32 0x80004005.
Definition E_INVALIDARG : HRESULT := to_int32 0x80070057.
Definition E_UNEXPECTED : HRESULT := to_int32 0x8000FFFF.
Definition E_PENDING : HRESULT := to_int32 0x8000000A.

(** [E_HC_NOT_INITIALISED] comes from the public header, which is not
    part of this file's sources: [MAKE_HRESULT(1, 2339, 0x5001)]. *)
Definition E_HC_NOT_INITIALISED : HRESULT :=
  to_int32 (Z.lor (Z.shiftl 1 31) (Z.lor (Z.shiftl 2339 16) 0x5001)).

(** The [FAILED] macro: the sign bit. *)
Definition FAILED (hr : HRESULT) : bool := hr <? 0.

End HResult.
Export HResult.

(** ** Exceptions *)

Inductive exn :=
| hresult_error (code : HRESULT)   (* winrt::hresult_error, with e.code() *)
| other_exception.                 (* anything else, caught by catch (...) *)

Inductive outcome (A : Type) :=
| Normal (a : A)
| Throw (e : exn).
Arguments Normal {A} a.
Arguments Throw {A} e.

Definition obind {A B} (m : outcome A) (k : A -> outcome B) : outcome B :=
  match m with
  | Normal a => k a
  | Throw e => Throw e
  end.

(** A call that throws when the environment injects a fault. *)
Definition raising (fault : option exn) : outcome unit :=
  match fault with
  | None => Normal tt
  | Some e => Throw e
  end.

(** ** Data model *)

(** Caller-owned [AsyncBlock]s are told apart by their address. *)
Definition AsyncBlock := nat.

(** A session handle: [None] is [nullptr]. *)
Definition hc_websocket_handle_t := option nat.

(** Wide strings are sequences of UTF-16 code units. *)
Definition wchar_t := N.
Definition wstring := list wchar_t.

(** [winrt::Windows::Foundation::AsyncStatus] *)
Inductive AsyncStatus := Started | Completed | Canceled | Error.

#[global] Instance AsyncStatus_eq_dec : EqDecision AsyncStatus.
Proof. solve_decision. Defined.

(** [class websocket_outgoing_message].  [m_storeAsyncOp] is represented
    by the presence of the record among the outstanding store operations
    of the process ([store_ops] below). *)
Record websocket_outgoing_message := {
  m_message : string;
  m_asyncBlock : AsyncBlock;
  m_storeAsyncOpStatus : AsyncStatus;
  m_storeAsyncResult : HRESULT;
  m_id : Z
}.

(** The transport object, as far as this file drives it: the log of
    [SetRequestHeader] calls, the [SupportedProtocols] vector, the
    identity of its output stream and the arguments of [Close]. *)
Record MessageWebSocket := {
  requestHeaders : list (string * string);
  supportedProtocols : list wstring;
  outputStream : nat;
  closeRequest : option (Z * wstring)
}.

(** [MessageWebSocket()] : a fresh transport whose output stream is [s]. *)
Definition new_MessageWebSocket (s : nat) : MessageWebSocket :=
  {| requestHeaders := []; supportedProtocols := [];
     outputStream := s; closeRequest := None |}.

(** [DataWriter]: the stream it is attached to and the bytes written
    with [WriteBytes], oldest first. *)
Record DataWriter := {
  writer_stream : option nat;
  written : list string
}.

Definition new_DataWriter (s : option nat) : DataWriter :=
  {| writer_stream := s; written := [] |}.

(** [class winrt_websocket_impl] *)
Record winrt_websocket_impl := {
  m_messageWebSocket : option MessageWebSocket;
  m_messageDataWriter : DataWriter;
  m_connectAsyncOpResult : HRESULT;
  (* m_context.m_websocket, the only field of ReceiveContext *)
  m_context : hc_websocket_handle_t;
  m_outgoingMessageQueue : list websocket_outgoing_message;
  m_websocketHandle : hc_websocket_handle_t
}.

(** The session object behind a handle ([HC_WEBSOCKET], declared in
    [HCWebSocket.h]): the fields this file reads. *)
Record HC_WEBSOCKET := {
  id : Z;
  uri : string;
  subProtocol : string;
  connectHeaders : list (string * string);
  impl : option winrt_websocket_impl
}.

(** [struct SendMessageCallbackContent].  The code keeps a shared pointer
    to the implementation object; here the context names the session
    whose implementation object it is.  The two agree as long as that
    session's implementation object is not replaced while the context is
    in use. *)
Record SendMessageCallbackContent := {
  nextMessage : websocket_outgoing_message;
  (* the session that owns the shared [winrt_websocket_impl] *)
  websocketTask : nat
}.

(** [struct WebSocketCompletionResult] *)
Record WebSocketCompletionResult := {
  websocket : hc_websocket_handle_t;
  errorCode : HRESULT;
  platformErrorCode : HRESULT
}.

(** The process singleton: only [m_lastId], an unsigned 64-bit counter. *)
Record http_singleton := { m_lastId : Z }.

(** The state of the process that this file reads and writes. *)
Record world := {
  singleton : option http_singleton;
  sockets : gmap nat HC_WEBSOCKET;
  (* shared_ptr_cache: raw context pointer -> stored context *)
  ptr_cache : gmap nat SendMessageCallbackContent;
  next_raw : nat;
  (* work handed to ScheduleAsync whose DoWork has not run yet *)
  task_queue : list (AsyncBlock * nat);
  (* StoreAsync operations issued and not yet completed, each with the
     AsyncBlock and the raw context its completion handler captured *)
  store_ops : list (AsyncBlock * nat);
  (* ConnectAsync operations issued and not yet completed *)
  connect_ops : list (AsyncBlock * nat);
  (* CompleteAsync calls, oldest first *)
  completions : list (AsyncBlock * HRESULT)
}.

(** *** State updates *)

Definition set_singleton (s : option http_singleton) (w : world) : world :=
  {| singleton := s; sockets := sockets w; ptr_cache := ptr_cache w;
     next_raw := next_raw w; task_queue := task_queue w;
     store_ops := store_ops w; connect_ops := connect_ops w;
     completions := completions w |}.

Definition set_sockets (m : gmap nat HC_WEBSOCKET) (w : world) : world :=
  {| singleton := singleton w; sockets := m; ptr_cache := ptr_cache w;
     next_raw := next_raw w; task_queue := task_queue w;
     store_ops := store_ops w; connect_ops := connect_ops w;
     completions := completions w |}.

Definition set_ptr_cache (c : gmap nat SendMessageCallbackContent) (n : nat)
    (w : world) : world :=
  {| singleton := singleton w; sockets := sockets w; ptr_cache := c;
     next_raw := n; task_queue := task_queue w;
     store_ops := store_ops w; connect_ops := connect_ops w;
     completions := completions w |}.

Definition set_task_queue (q : list (AsyncBlock * nat)) (w : world) : world :=
  {| singleton := singleton w; sockets := sockets w; ptr_cache := ptr_cache w;
     next_raw := next_raw w; task_queue := q;
     store_ops := store_ops w; connect_ops := connect_ops w;
     completions := completions w |}.

Definition set_store_ops (q : list (AsyncBlock * nat)) (w : world) : world :=
  {| singleton := singleton w; sockets := sockets w; ptr_cache := ptr_cache w;
     next_raw := next_raw w; task_queue := task_queue w;
     store_ops := q; connect_ops := connect_ops w;
     completions := completions w |}.

Definition set_connect_ops (q : list (AsyncBlock * nat)) (w : world) : world :=
  {| singleton := singleton w; sockets := sockets w; ptr_cache := ptr_cache w;
     next_raw := next_raw w; task_queue := task_queue w;
     store_ops := store_ops w; connect_ops := q;
     completions := completions w |}.

(** [CompleteAsync(asyncBlock, hr, size)] *)
Definition CompleteAsync (asyncBlock : AsyncBlock) (hr : HRESULT) (w : world)
    : world :=
  {| singleton := singleton w; sockets := sockets w; ptr_cache := ptr_cache w;
     next_raw := next_raw w; task_queue := task_queue w;
     store_ops := store_ops w; connect_ops := connect_ops w;
     completions := completions w ++ [(asyncBlock, hr)] |}.

Definition set_impl (i : option winrt_websocket_impl) (ws : HC_WEBSOCKET)
    : HC_WEBSOCKET :=
  {| id := id ws; uri := uri ws; subProtocol := subProtocol ws;
     connectHeaders := connectHeaders ws; impl := i |}.

Definition set_queue (q : list websocket_outgoing_message)
    (t : winrt_websocket_impl) : winrt_websocket_impl :=
  {| m_messageWebSocket := m_messageWebSocket t;
     m_messageDataWriter := m_messageDataWriter t;
     m_connectAsyncOpResult := m_connectAsyncOpResult t;
     m_context := m_context t;
     m_outgoingMessageQueue := q;
     m_websocketHandle := m_websocketHandle t |}.

Definition set_socket (s : option MessageWebSocket)
    (t : winrt_websocket_impl) : winrt_websocket_impl :=
  {| m_messageWebSocket := s;
     m_messageDataWriter := m_messageDataWriter t;
     m_connectAsyncOpResult := m_connectAsyncOpResult t;
     m_context := m_context t;
     m_outgoingMessageQueue := m_outgoingMessageQueue t;
     m_websocketHandle := m_websocketHandle t |}.

Definition set_writer (d : DataWriter)
    (t : winrt_websocket_impl) : winrt_websocket_impl :=
  {| m_messageWebSocket := m_messageWebSocket t;
     m_messageDataWriter := d;
     m_connectAsyncOpResult := m_connectAsyncOpResult t;
     m_context := m_context t;
     m_outgoingMessageQueue := m_outgoingMessageQueue t;
     m_websocketHandle := m_websocketHandle t |}.

Definition set_connect_result (hr : HRESULT)
    (t : winrt_websocket_impl) : winrt_websocket_impl :=
  {| m_messageWebSocket := m_messageWebSocket t;
     m_messageDataWriter := m_messageDataWriter t;
     m_connectAsyncOpResult := hr;
     m_context := m_context t;
     m_outgoingMessageQueue := m_outgoingMessageQueue t;
     m_websocketHandle := m_websocketHandle t |}.

Definition set_context (c : hc_websocket_handle_t)
    (t : winrt_websocket_impl) : winrt_websocket_impl :=
  {| m_messageWebSocket := m_messageWebSocket t;
     m_messageDataWriter := m_messageDataWriter t;
     m_connectAsyncOpResult := m_connectAsyncOpResult t;
     m_context := c;
     m_outgoingMessageQueue := m_outgoingMessageQueue t;
     m_websocketHandle := m_websocketHandle t |}.

(** Dereference of a session handle; [None] when it is null or dangling. *)
Definition deref (w : world) (p : hc_websocket_handle_t) : option HC_WEBSOCKET :=
  match p with
  | None => None
  | Some h => sockets w !! h
  end.

(** [std::dynamic_pointer_cast<winrt_websocket_impl>(websocket->impl)],
    dereferenced. *)
Definition get_impl (w : world) (h : nat) : option winrt_websocket_impl :=
  match sockets w !! h with
  | None => None
  | Some ws => impl ws
  end.

(** Mutation of the [winrt_websocket_impl] shared through session [h]. *)
Definition update_impl (h : nat)
    (f : winrt_websocket_impl -> winrt_websocket_impl) (w : world) : world :=
  set_sockets
    (alter (fun ws => set_impl (option_map f (impl ws)) ws) h (sockets w)) w.

(** The transport object of a session, when it has one. *)
Definition session_transport (ws : HC_WEBSOCKET) : option MessageWebSocket :=
  match impl ws with
  | None => None
  | Some t => m_messageWebSocket t
  end.

Definition transport_of (w : world) (h : nat) : option MessageWebSocket :=
  match get_impl w h with
  | None => None
  | Some t => m_messageWebSocket t
  end.

(** The queue of session [h]; empty when there is none. *)
Definition queue_of (w : world) (h : nat) : list websocket_outgoing_message :=
  match get_impl w h with
  | None => []
  | Some t => m_outgoingMessageQueue t
  end.

(** ** The outgoing-message pipeline *)

Section Pipeline.

(** The results of the scheduler's [BeginAsync] and [ScheduleAsync] for a
    given [AsyncBlock]; the scheduler itself is not part of this file. *)
Variable BeginAsync : AsyncBlock -> HRESULT.
Variable ScheduleAsync : AsyncBlock -> HRESULT.

(** [MessageWebSocketSendMessage(websocketTask)], where [websocketTask] is
    the implementation object shared through session [h].  The reference
    count taken by [HCWebSocketDuplicateHandle] is not represented. *)
Definition MessageWebSocketSendMessage (h : nat) (w : world) : option world :=
  match get_impl w h with
  | None => None
  | Some task =>
    match m_outgoingMessageQueue task with
    | [] => Some w                                     (* msg == nullptr *)
    | msg :: rest =>
      let w1 := update_impl h (set_queue rest) w in    (* front(); pop() *)
      let rawContext := next_raw w1 in                 (* shared_ptr_cache::store *)
      let callbackContext := {| nextMessage := msg; websocketTask := h |} in
      let w2 := set_ptr_cache (<[rawContext := callbackContext]> (ptr_cache w1))
                              (S rawContext) w1 in
      if decide (BeginAsync (m_asyncBlock msg) = S_OK) then
        if decide (ScheduleAsync (m_asyncBlock msg) = S_OK) then
          Some (set_task_queue
                  (task_queue w2 ++ [(m_asyncBlock msg, rawContext)]) w2)
        else Some w2
      else Some w2
    end
  end.

(** [Internal_HCWebSocketSendMessageAsync].  [message] is [None] for a
    null pointer and otherwise the characters before the terminator. *)
Definition Internal_HCWebSocketSendMessageAsync
    (websocket : hc_websocket_handle_t) (message : option string)
    (asyncBlock : AsyncBlock) (w : world) : option (HRESULT * world) :=
  match message with
  | None => Some (E_INVALIDARG, w)
  | Some text =>
    match singleton w with                      (* get_http_singleton(false) *)
    | None => Some (E_HC_NOT_INITIALISED, w)
    | Some httpSingleton =>
      match websocket, deref w websocket with   (* websocket->impl *)
      | Some h, Some ws =>
        let lastId := (m_lastId httpSingleton + 1) mod 2 ^ 64 in
        let msg := {| m_message := text;
                      m_asyncBlock := asyncBlock;
                      m_storeAsyncOpStatus := Started;
                      m_storeAsyncResult := 0;
                      m_id := lastId |} in
        let w1 := set_singleton (Some {| m_lastId := lastId |}) w in
        if (String.length text =? 0)%nat then Some (E_INVALIDARG, w1)
        else
          match impl ws with
          | None => None
          | Some websocketTask =>
            let sendInProgress :=
              (0 <? length (m_outgoingMessageQueue websocketTask))%nat in
            let w2 :=
              update_impl h
                (set_queue (m_outgoingMessageQueue websocketTask ++ [msg])) w1 in
            (* No sends in progress, so start sending the message *)
            if negb sendInProgress then
              match MessageWebSocketSendMessage h w2 with
              | None => None
              | Some w3 => Some (S_OK, w3)
              end
            else Some (S_OK, w2)
          end
      | _, _ => None
      end
    end
  end.

(** [WebsockSendMessageDoWork(asyncBlock, executionRoutineContext)].
    [fault] is the code of the [winrt::hresult_error] that [StoreAsync]
    raises, if it raises one. *)
Definition WebsockSendMessageDoWork (fault : option HRESULT)
    (asyncBlock : AsyncBlock) (executionRoutineContext : option nat)
    (w : world) : option (HRESULT * world) :=
  match executionRoutineContext ≫= (fun raw => ptr_cache w !! raw) with
  | None => Some (E_INVALIDARG, w)
  | Some sendMsgContext =>
    let h := websocketTask sendMsgContext in
    match get_impl w h, executionRoutineContext with
    | Some task, Some raw =>
      let msg := nextMessage sendMsgContext in
      let writer := m_messageDataWriter task in
      (* WriteBytes *)
      let w1 := update_impl h
                  (set_writer {| writer_stream := writer_stream writer;
                                 written := written writer ++ [m_message msg] |})
                  w in
      match fault with
      | Some code => Some (code, w1)
      | None =>
        (* StoreAsync, and the registration of its completion handler *)
        Some (E_PENDING, set_store_ops (store_ops w1 ++ [(asyncBlock, raw)]) w1)
      end
    | _, _ => None
    end
  end.

(** The store operation's completion handler ([Completed(...)] in
    [WebsockSendMessageDoWork]) for the operation that captured
    [asyncBlock] and the record of context [raw].  [results] is what
    [asyncOp.GetResults()] yields. *)
Definition store_completed (asyncBlock : AsyncBlock) (raw : nat)
    (status : AsyncStatus) (results : outcome Z) (w : world) : option world :=
  match ptr_cache w !! raw with
  | None => None
  | Some ctx =>
    let msg := nextMessage ctx in
    let hr :=
      match results with
      | Normal result => to_int32 result
      | Throw (hresult_error code) => code
      | Throw other_exception => E_FAIL
      end in
    let msg' := {| m_message := m_message msg;
                   m_asyncBlock := m_asyncBlock msg;
                   m_storeAsyncOpStatus := status;
                   m_storeAsyncResult := hr;
                   m_id := m_id msg |} in
    let ctx' := {| nextMessage := msg'; websocketTask := websocketTask ctx |} in
    let w1 := set_ptr_cache (<[raw := ctx']> (ptr_cache w)) (next_raw w) w in
    let w2 := CompleteAsync asyncBlock hr w1 in
    MessageWebSocketSendMessage (websocketTask ctx) w2
  end.

(** *** Events of the pipeline *)

Inductive event :=
| EvSend (websocket : hc_websocket_handle_t) (message : option string)
         (asyncBlock : AsyncBlock)
| EvDoWork (i : nat) (fault : option HRESULT)
| EvStoreCompleted (i : nat) (status : AsyncStatus) (results : outcome Z).

(** One event: an application call, the scheduler running the [i]-th
    queued work item, or the transport completing the [i]-th outstanding
    store operation.  An event runs to its end before the next begins;
    SendMessage calls that overlap are the subject of [call_step]. *)
Definition step (e : event) (w : world) : option world :=
  match e with
  | EvSend websocket message asyncBlock =>
    option_map snd
      (Internal_HCWebSocketSendMessageAsync websocket message asyncBlock w)
  | EvDoWork i fault =>
    match task_queue w !! i with
    | None => None
    | Some (asyncBlock, raw) =>
      option_map snd
        (WebsockSendMessageDoWork fault asyncBlock (Some raw)
           (set_task_queue (delete i (task_queue w)) w))
    end
  | EvStoreCompleted i status results =>
    match store_ops w !! i with
    | None => None
    | Some (asyncBlock, raw) =>
      store_completed asyncBlock raw status results
        (set_store_ops (delete i (store_ops w)) w)
    end
  end.

Fixpoint run (es : list event) (w : world) : option world :=
  match es with
  | [] => Some w
  | e :: es' =>
    match step e w with
    | None => None
    | Some w' => run es' w'
    end
  end.

(** The records in the "submitted to the transport, awaiting flush
    completion" sub-state: those whose store operation is outstanding. *)
Definition in_flight (w : world) : list websocket_outgoing_message :=
  omap (fun op => option_map nextMessage (ptr_cache w !! op.2)) (store_ops w).

(** The records taken off a queue and handed to the scheduler, in the
    order they were handed over. *)
Definition dispatched (w : world) : list websocket_outgoing_message :=
  omap (fun op => option_map nextMessage (ptr_cache w !! op.2)) (task_queue w).

End Pipeline.

(** ** Receiving *)

(** The [DataReader] of a message-received event: the bytes it holds and
    the faults its two calls raise, if any. *)
Record DataReader := {
  unconsumed : list byte;
  length_fault : option exn;
  read_fault : option exn
}.

Definition UnconsumedBufferLength (reader : DataReader) : outcome nat :=
  obind (raising (length_fault reader))
        (fun _ => Normal (length (unconsumed reader))).

(** [ReadBytes] fills a buffer of [n] bytes; asking for more than the
    reader holds is an error of the reader ([E_BOUNDS]). *)
Definition ReadBytes (reader : DataReader) (n : nat) : outcome (list byte) :=
  obind (raising (read_fault reader))
        (fun _ => if (n <=? length (unconsumed reader))%nat
                  then Normal (take n (unconsumed reader))
                  else Throw (hresult_error (to_int32 0x8000000B))).

(** One invocation of the registered message callback: the session it is
    told about and the buffer [payload.data()] points to. *)
Definition message_call := (hc_websocket_handle_t * list byte)%type.

(** The [try] block of [ReceiveContext::OnReceive].  [messageFunc] tells
    whether [HCWebSocketGetFunctions] yields a callback, and [func_fault]
    what the callback raises, if anything.  The result is the list of
    callback invocations and how the block ends. *)
Definition OnReceive_try (m_websocket : hc_websocket_handle_t)
    (messageFunc : bool) (func_fault : option exn)
    (args : outcome DataReader) : list message_call * outcome unit :=
  match args with                               (* args.GetDataReader() *)
  | Throw e => ([], Throw e)
  | Normal reader =>
    match UnconsumedBufferLength reader with
    | Throw e => ([], Throw e)
    | Normal len =>
      if (0 <? len)%nat then
        match ReadBytes reader len with         (* payload.resize; ReadBytes *)
        | Throw e => ([], Throw e)
        | Normal payload =>
          if messageFunc
          then ([(m_websocket, payload)], raising func_fault)
          else ([], Normal tt)
        end
      else ([], Normal tt)
    end
  end.

(** [ReceiveContext::OnReceive]: the block above under [catch (...) {}]. *)
Definition OnReceive (m_websocket : hc_websocket_handle_t)
    (messageFunc : bool) (func_fault : option exn)
    (args : outcome DataReader) : list message_call * outcome unit :=
  let '(calls, _) := OnReceive_try m_websocket messageFunc func_fault args in
  (calls, Normal tt).

(** ** Connecting *)

Definition tolower (c : ascii) : ascii :=
  let n := nat_of_ascii c in
  if ((65 <=? n) && (n <=? 90))%nat then ascii_of_nat (n + 32) else c.

Fixpoint lowercase (s : string) : string :=
  match s with
  | EmptyString => EmptyString
  | String c r => String (tolower c) (lowercase r)
  end.

(** [str_icmp]: [_stricmp(left, right) == 0], the comparison of the two
    strings after lower-casing in the "C" locale. *)
Definition str_icmp (left right : string) : bool :=
  String.eqb (lowercase left) (lowercase right).

Definition protocolHeader : string := "Sec-WebSocket-Protocol".

(** [SetRequestHeader(to_hstring(name), to_hstring(value))]: the log keeps
    the two strings the arguments are converted from.  The call is taken
    not to raise. *)
Definition SetRequestHeader (name value : string) (s : MessageWebSocket)
    : MessageWebSocket :=
  {| requestHeaders := requestHeaders s ++ [(name, value)];
     supportedProtocols := supportedProtocols s;
     outputStream := outputStream s;
     closeRequest := closeRequest s |}.

(** [Control().SupportedProtocols().Append(value)] *)
Definition Append (value : wstring) (s : MessageWebSocket) : MessageWebSocket :=
  {| requestHeaders := requestHeaders s;
     supportedProtocols := supportedProtocols s ++ [value];
     outputStream := outputStream s;
     closeRequest := closeRequest s |}.

(** [Close(code, reason)]; the call is taken not to raise. *)
Definition Close (code : Z) (reason : wstring) (s : MessageWebSocket)
    : MessageWebSocket :=
  {| requestHeaders := requestHeaders s;
     supportedProtocols := supportedProtocols s;
     outputStream := outputStream s;
     closeRequest := Some (code, reason) |}.

(** Modelled from the spec: [HCWebSocketGetNumHeaders] and
    [HCWebSocketGetHeaderAtIndex] are defined outside this file's sources.
    The session's header list is [connectHeaders]; the first yields its
    length and the second the name and the value at an index, as non-null
    strings, and nothing out of range. *)
Definition HCWebSocketGetNumHeaders (ws : HC_WEBSOCKET) : nat :=
  length (connectHeaders ws).

Definition HCWebSocketGetHeaderAtIndex (ws : HC_WEBSOCKET) (i : nat)
    : option string * option string :=
  match connectHeaders ws !! i with
  | Some (name, value) => (Some name, Some value)
  | None => (None, None)
  end.

(** The body of the header loop of [WebsocketConnectDoWork]. *)
Definition set_header_at (ws : HC_WEBSOCKET) (s : MessageWebSocket) (i : nat)
    : MessageWebSocket :=
  match HCWebSocketGetHeaderAtIndex ws i with
  | (Some headerName, Some headerValue) =>
    if negb (str_icmp headerName protocolHeader)
    then SetRequestHeader headerName headerValue s
    else s
  | _ => s
  end.

(** [for (uint32_t i = 0; i < numHeaders; i++) ...] *)
Definition apply_headers (ws : HC_WEBSOCKET) (s : MessageWebSocket)
    : MessageWebSocket :=
  fold_left (set_header_at ws) (seq 0 (HCWebSocketGetNumHeaders ws)) s.

(** *** Sub-protocols *)

Definition comma : wchar_t := 44%N.

(** Whitespace of the "C" locale: space, and tab to carriage return. *)
Definition isspace (c : wchar_t) : bool :=
  ((c =? 32) || ((9 <=? c) && (c <=? 13)))%N.

Fixpoint drop_spaces (s : wstring) : wstring :=
  match s with
  | [] => []
  | c :: r => if isspace c then drop_spaces r else s
  end.

(** Modelled from the spec: [trim_whitespace] is defined outside this
    file's sources; it removes the whitespace that surrounds the text,
    first on the left and then on the right.  The functions of this file
    take the helper as a parameter; this is the instance they are run
    with. *)
Definition trim_surrounding_whitespace (token : wstring) : wstring :=
  rev (drop_spaces (rev (drop_spaces token))).

(** A [std::wstringstream] read with [std::getline]: the characters not
    yet extracted and the two state bits the loop depends on. *)
Record wstringstream := {
  rdbuf : wstring;
  eofbit : bool;
  failbit : bool
}.

(** [const wchar_t*] to [std::wstring]: the characters before the first
    terminator. *)
Fixpoint c_str (s : wstring) : wstring :=
  match s with
  | [] => []
  | c :: r => if (c =? 0)%N then [] else c :: c_str r
  end.

(** The characters before the first [delim], and what follows it; [None]
    when the end is reached first. *)
Fixpoint read_until (delim : wchar_t) (s : wstring) : wstring * option wstring :=
  match s with
  | [] => ([], None)
  | c :: r =>
    if (c =? delim)%N then ([], Some r)
    else let '(t, rest) := read_until delim r in (c :: t, rest)
  end.

(** [std::getline(header, token, delim)].  With [eofbit] or [failbit] set
    the sentry fails: [failbit] is set and [token] is left alone.
    Otherwise [token] is erased and characters are extracted up to the
    delimiter, which is extracted and dropped, or to the end, which sets
    [eofbit]; extracting nothing at all sets [failbit]. *)
Definition getline (header : wstringstream) (token : wstring) (delim : wchar_t)
    : wstringstream * wstring :=
  if eofbit header || failbit header then
    ({| rdbuf := rdbuf header; eofbit := eofbit header; failbit := true |}, token)
  else
    match rdbuf header with
    | [] => ({| rdbuf := []; eofbit := true; failbit := true |}, [])
    | _ :: _ =>
      match read_until delim (rdbuf header) with
      | (t, Some rest) => ({| rdbuf := rest; eofbit := false; failbit := false |}, t)
      | (t, None) => ({| rdbuf := []; eofbit := true; failbit := false |}, t)
      end
    end.

(** The fields of a text separated by [delim]: one more than there are
    delimiters. *)
Fixpoint split_on (delim : wchar_t) (s : wstring) : list wstring :=
  match s with
  | [] => [[]]
  | c :: r =>
    if (c =? delim)%N then [] :: split_on delim r
    else
      match split_on delim r with
      | t :: ts => (c :: t) :: ts
      | [] => [[c]]
      end
  end.

Definition nonempty (t : wstring) : bool :=
  match t with
  | [] => false
  | _ :: _ => true
  end.

(** Widening of 7-bit text, one code unit per character. *)
Definition widen (s : string) : wstring :=
  List.map (fun c => N_of_ascii c) (list_ascii_of_string s).

Section Connect.

(** [utf16_from_utf8] and [trim_whitespace], two helpers of the library,
    are defined outside this file's sources. *)
Variable utf16_from_utf8 : string -> wstring.
Variable trim_whitespace : wstring -> wstring.

(** [while (std::getline(header, token, L',')) { ... }] *)
Fixpoint parse_loop (fuel : nat) (header : wstringstream) (token : wstring)
    (values : list wstring) : option (list wstring) :=
  match fuel with
  | O => None
  | S fuel' =>
    let '(header', token') := getline header token comma in
    if failbit header' then Some values
    else
      let trimmed := trim_whitespace token' in
      parse_loop fuel' header' trimmed
        (match trimmed with
         | [] => values
         | _ :: _ => values ++ [trimmed]
         end)
  end.

(** The reading of the spec: split on commas, trim every entry, drop the
    empty ones. *)
Definition spec_subprotocols (text : wstring) : list wstring :=
  List.filter nonempty (List.map trim_whitespace (split_on comma text)).


(** [parse_subprotocols]: [None] only if the loop were cut short. *)
Definition parse_subprotocols (subProtocol : string) : option (list wstring) :=
  let text := c_str (utf16_from_utf8 subProtocol) in
  parse_loop (S (S (length text)))
             {| rdbuf := text; eofbit := false; failbit := false |} [] [].

(** [WebsocketConnectDoWork(asyncBlock, executionRoutineContext)].
    [stream] names the output stream of the transport object created
    here, and [fault] is the code of the [winrt::hresult_error] that
    [ConnectAsync] raises, if it raises one. *)
Definition WebsocketConnectDoWork (stream : nat) (fault : option HRESULT)
    (asyncBlock : AsyncBlock) (executionRoutineContext : hc_websocket_handle_t)
    (w : world) : option (HRESULT * world) :=
  match executionRoutineContext, deref w executionRoutineContext with
  | Some h, Some ws =>
    match impl ws, parse_subprotocols (subProtocol ws) with
    | Some _, Some protocols =>
      let s0 := new_MessageWebSocket stream in
      let s1 := apply_headers ws s0 in
      let s2 := fold_left (fun s value => Append value s) protocols s1 in
      let w1 := update_impl h
                  (fun t => set_context (Some h) (set_socket (Some s2) t)) w in
      match fault with
      | Some code => Some (code, w1)
      | None =>
        Some (E_PENDING, set_connect_ops (connect_ops w1 ++ [(asyncBlock, h)]) w1)
      end
    | _, _ => None
    end
  | _, _ => None
  end.

End Connect.

(** The completion handler of the connect operation ([Completed(...)] in
    [WebsocketConnectDoWork]) for the operation that captured [asyncBlock]
    and the implementation object of session [h].  [acquire] is what the
    construction of the [DataWriter] over [OutputStream()] raises, if
    anything.  The result tells how the handler ends. *)
Definition connect_completed (asyncBlock : AsyncBlock) (h : nat)
    (status : AsyncStatus) (acquire : option exn) (w : world)
    : option (outcome world) :=
  match get_impl w h with
  | None => None
  | Some task =>
    match m_messageWebSocket task with
    | None => None
    | Some s =>
      let attempt : outcome winrt_websocket_impl :=
        obind (raising acquire) (fun _ =>
          let t1 := set_writer (new_DataWriter (Some (outputStream s))) task in
          Normal (set_connect_result
                    (if decide (status = Error) then E_FAIL else S_OK) t1)) in
      let task' :=
        match attempt with
        | Normal t => t
        | Throw (hresult_error code) => set_connect_result code task
        | Throw other_exception => set_connect_result E_FAIL task
        end in
      Some (Normal (CompleteAsync asyncBlock S_OK
                      (update_impl h (fun _ => task') w)))
    end
  end.

(** ** Results *)

(** [WebsocketConnectGetResult(data)], with [data->context] the session
    handle; the second component is what is copied into [data->buffer]. *)
Definition WebsocketConnectGetResult (context : hc_websocket_handle_t)
    (w : world) : option (HRESULT * WebSocketCompletionResult) :=
  match deref w context with
  | None => None
  | Some ws =>
    match impl ws with
    | None => None
    | Some task =>
      Some (S_OK,
            {| websocket := context;
               errorCode := if FAILED (m_connectAsyncOpResult task)
                            then E_FAIL else S_OK;
               platformErrorCode := m_connectAsyncOpResult task |})
    end
  end.

Section SendResult.

(** [sizeof(WebSocketCompletionResult)] *)
Variable sizeof_WebSocketCompletionResult : Z.

(** [WebsockSendMessageGetResult(data)], with [data->context] and
    [data->bufferSize]; the second component is what is copied into
    [data->buffer], if anything is. *)
Definition WebsockSendMessageGetResult (context : option nat) (bufferSize : Z)
    (w : world) : option (HRESULT * option WebSocketCompletionResult) :=
  match context with
  | None => Some (E_INVALIDARG, None)
  | Some raw =>
    if bufferSize <? sizeof_WebSocketCompletionResult
    then Some (E_INVALIDARG, None)
    else
      match ptr_cache w !! raw with
      | None => Some (E_INVALIDARG, None)
      | Some sendMsgContext =>
        let msg := nextMessage sendMsgContext in
        match get_impl w (websocketTask sendMsgContext) with
        | None => None
        | Some task =>
          match m_websocketHandle task with
          | None => Some (E_INVALIDARG, None)
          | Some _ =>
            Some (S_OK,
                  Some {| websocket := m_websocketHandle task;
                          errorCode := if FAILED (m_storeAsyncResult msg)
                                       then E_FAIL else S_OK;
                          platformErrorCode := m_storeAsyncResult msg |})
          end
        end
      end
  end.

End SendResult.

(** ** Disconnecting *)

(** [Internal_HCWebSocketDisconnect(websocket, closeStatus)]; the cast of
    [closeStatus] to [unsigned short] keeps its low 16 bits. *)
Definition Internal_HCWebSocketDisconnect (websocket : hc_websocket_handle_t)
    (closeStatus : Z) (w : world) : option (HRESULT * world) :=
  match websocket with
  | None => Some (E_INVALIDARG, w)
  | Some h =>
    match sockets w !! h with
    | None => None
    | Some ws =>
      match impl ws with
      | None => Some (E_UNEXPECTED, w)
      | Some websocketTask =>
        match m_messageWebSocket websocketTask with
        | None => Some (E_UNEXPECTED, w)
        | Some s =>
          Some (S_OK,
                update_impl h
                  (set_socket (Some (Close (closeStatus mod 2 ^ 16) [] s))) w)
        end
      end
    end
  end.

(** The headers that the loop of [WebsocketConnectDoWork] lets through. *)
Definition passes (header : string * string) : bool :=
  negb (str_icmp (fst header) protocolHeader).

(** ** The completion result, as the spec words it *)

(** The generic status derived from a platform code: failure if the
    platform code indicates failure, success otherwise. *)
Definition generic_status (platform : HRESULT) : HRESULT :=
  if FAILED platform then E_FAIL else S_OK.

(** The identifier after [n]: the pre-increment of an unsigned 64-bit
    counter. *)
Definition next_id (n : Z) : Z := (n + 1) mod 2 ^ 64.

(** The record that SendMessage builds for [text]. *)
Definition new_message (text : string) (asyncBlock : AsyncBlock) (id : Z)
    : websocket_outgoing_message :=
  {| m_message := text; m_asyncBlock := asyncBlock;
     m_storeAsyncOpStatus := Started; m_storeAsyncResult := 0; m_id := id |}.

(** ** Concrete states *)

(** A scheduler that accepts every request. *)
Definition always_ok (_ : AsyncBlock) : HRESULT := S_OK.

(** The implementation object of a session whose connect has completed. *)
Definition open_impl (h : nat) : winrt_websocket_impl :=
  {| m_messageWebSocket := Some (new_MessageWebSocket 1);
     m_messageDataWriter := new_DataWriter (Some 1%nat);
     m_connectAsyncOpResult := S_OK;
     m_context := Some h;
     m_outgoingMessageQueue := [];
     m_websocketHandle := Some h |}.

Definition session (i : option winrt_websocket_impl)
    (headers : list (string * string)) : HC_WEBSOCKET :=
  {| id := 1; uri := "wss://host/path"; subProtocol := "chat, superchat";
     connectHeaders := headers; impl := i |}.

Definition world_of (s : option http_singleton) (m : gmap nat HC_WEBSOCKET)
    : world :=
  {| singleton := s; sockets := m; ptr_cache := ∅; next_raw := 0;
     task_queue := []; store_ops := []; connect_ops := [];
     completions := [] |}.

(** An initialised process with two open sessions, handles 7 and 8. *)
Definition two_sessions : world :=
  world_of (Some {| m_lastId := 41 |})
           {[ 7%nat := session (Some (open_impl 7)) [];
              8%nat := session (Some (open_impl 8)) [] ]}.

(** An initialised process with one open session, handle 7. *)
Definition open_world : world :=
  world_of (Some {| m_lastId := 0 |})
           {[ 7%nat := session (Some (open_impl 7)) [] ]}.

(** The same process before the library is initialised. *)
Definition uninitialised_world : world :=
  world_of None {[ 7%nat := session (Some (open_impl 7)) [] ]}.

(** A session whose implementation object has no transport. *)
Definition no_transport_world : world :=
  world_of (Some {| m_lastId := 0 |})
           {[ 7%nat := session (Some (set_socket None (open_impl 7))) [] ]}.

(** A session whose transport has been configured and whose connect
    operation is outstanding: no writer is attached yet. *)
Definition connecting_world : world :=
  set_connect_ops [(100%nat, 7%nat)]
    (world_of (Some {| m_lastId := 0 |})
       {[ 7%nat :=
            session (Some (set_writer (new_DataWriter None) (open_impl 7))) [] ]}).

(** A session about to connect with three headers, one of them the
    sub-protocol header spelled in lower case. *)
Definition lowercase_header_world : world :=
  world_of (Some {| m_lastId := 0 |})
    {[ 7%nat :=
         session (Some (open_impl 7))
           [("Host", "host"); ("sec-websocket-protocol", "chat");
            ("X-Token", "t")]%string ]}.

(** The open session after one send whose store operation failed. *)
Definition after_failed_send : world :=
  default open_world
    (run always_ok always_ok
       [EvSend (Some 7%nat) (Some "A") 100%nat;
        EvDoWork 0 None;
        EvStoreCompleted 0 Error (Throw (hresult_error E_FAIL))]
       open_world).

(** Three sends issued back to back on the open session. *)
Definition burst : list event :=
  [EvSend (Some 7%nat) (Some "A"%string) 100%nat;
   EvSend (Some 7%nat) (Some "B"%string) 101%nat;
   EvSend (Some 7%nat) (Some "C"%string) 102%nat].

(** Two sends issued back to back on the open session. *)
Definition two_sends : list event :=
  [EvSend (Some 7%nat) (Some "A"%string) 100%nat;
   EvSend (Some 7%nat) (Some "B"%string) 101%nat].

(** Both work items run, then the transport completes the store of the
    second message before that of the first. *)
Definition second_completes_first : list event :=
  [EvDoWork 0 None; EvDoWork 0 None;
   EvStoreCompleted 1 Completed (Normal 1);
   EvStoreCompleted 0 Completed (Normal 1)].

(** The scheduler runs every queued work item, oldest first. *)
Definition run_queued (n : nat) : list event :=
  repeat (EvDoWork 0 None) n.

(** The sends of a list of messages, each with its [AsyncBlock]. *)
Definition sends (h : nat) (msgs : list (string * AsyncBlock)) : list event :=
  List.map (fun m => EvSend (Some h) (Some (fst m)) (snd m)) msgs.


(** ** Further functions of the file *)

(** One invocation of the registered close callback: the session it is
    told about and the status code. *)
Definition close_call := (hc_websocket_handle_t * Z)%type.

(** [ReceiveContext::OnClosed].  [closeFunc] tells whether
    [HCWebSocketGetFunctions] yields a callback, [func_fault] what the
    callback raises, if anything, and [code] what [args.Code()] yields.
    There is no [try] block: the result tells how the handler ends. *)
Definition OnClosed (m_websocket : hc_websocket_handle_t)
    (closeFunc : bool) (func_fault : option exn) (code : outcome Z)
    : list close_call * outcome unit :=
  if closeFunc then
    match code with
    | Throw e => ([], Throw e)
    | Normal c => ([(m_websocket, c)], raising func_fault)
    end
  else ([], Normal tt).

(** [std::make_shared<winrt_websocket_impl>()], followed by the
    assignment of [m_websocketHandle].  The two WinRT members are default
    constructed: a transport object, whose output stream is [stream], and
    a writer attached to nothing.  [HCWebSocketDuplicateHandle], defined
    outside this file's sources, yields the handle it is given; its
    reference count is not represented. *)
Definition new_impl (stream : nat) (websocket : hc_websocket_handle_t)
    : winrt_websocket_impl :=
  {| m_messageWebSocket := Some (new_MessageWebSocket stream);
     m_messageDataWriter := new_DataWriter None;
     m_connectAsyncOpResult := S_OK;
     m_context := None;
     m_outgoingMessageQueue := [];
     m_websocketHandle := websocket |}.

Section ConnectAsync.

Variable BeginAsync : AsyncBlock -> HRESULT.
Variable ScheduleAsync : AsyncBlock -> HRESULT.

(** [Internal_HCWebSocketConnectAsync(uri, subProtocol, websocket,
    asyncBlock)].  The third component of the result is the work item
    handed to the scheduler, if one is: its [AsyncBlock] and its context.
    The new implementation object takes the place of the session's
    earlier one; operations of the earlier one that are still outstanding
    would go on with that object, which this state does not keep apart,
    so the function stands for calls on a session with no operation
    under way ([quiescent]) or is followed on the new object alone. *)
Definition Internal_HCWebSocketConnectAsync (stream : nat)
    (uri subProtocol : string) (websocket : hc_websocket_handle_t)
    (asyncBlock : AsyncBlock) (w : world)
    : option (HRESULT * world * option (AsyncBlock * hc_websocket_handle_t)) :=
  match websocket, deref w websocket with
  | Some h, Some ws =>
    let websocketTask := new_impl stream websocket in
    let ws' := {| id := id ws; uri := uri; subProtocol := subProtocol;
                  connectHeaders := connectHeaders ws;
                  impl := Some websocketTask |} in
    let w' := set_sockets (<[h := ws']> (sockets w)) w in
    let hr := BeginAsync asyncBlock in
    if decide (hr = S_OK) then
      let hr' := ScheduleAsync asyncBlock in
      Some (hr', w',
            if decide (hr' = S_OK) then Some (asyncBlock, websocket) else None)
    else Some (hr, w', None)
  | _, _ => None
  end.

End ConnectAsync.

(** ** Vocabulary of the properties *)

(** No session has a record waiting in its queue. *)
Definition idle (w : world) : Prop := forall h, queue_of w h = [].

(** A send that gets past the guards: a non-null, non-empty message. *)
Definition accepted (e : event) : nat :=
  match e with
  | EvSend _ (Some text) _ => if (String.length text =? 0)%nat then 0 else 1
  | _ => 0
  end.

(** An event in which [StoreAsync] does not raise. *)
Definition fault_free (e : event) : bool :=
  match e with
  | EvDoWork _ (Some _) => false
  | _ => true
  end.


(** Every work item handed to the scheduler has its context in the
    cache. *)
Definition tracked (w : world) : Prop :=
  forall b raw, (b, raw) ∈ task_queue w -> is_Some (ptr_cache w !! raw).


(** The code that the store operation's completion handler records for
    what [GetResults()] yields. *)
Definition store_code (results : outcome Z) : HRESULT :=
  match results with
  | Normal result => to_int32 result
  | Throw (hresult_error code) => code
  | Throw other_exception => E_FAIL
  end.

(** The open session with a store operation under way for "A" and a
    record for "B" placed in the queue behind it. *)
Definition one_in_flight_one_queued : world :=
  update_impl 7
    (set_queue [new_message "B" 101%nat 2])
    (default open_world
       (run always_ok always_ok
          [EvSend (Some 7%nat) (Some "A"%string) 100%nat; EvDoWork 0 None]
          open_world)).


(** The transport as [WebsocketConnectDoWork] leaves it for a session
    with the given parsed protocols: fresh, with the session's headers
    that pass and those protocols. *)
Definition configured (ws : HC_WEBSOCKET) (protocols : list wstring)
    (stream : nat) : MessageWebSocket :=
  {| requestHeaders := List.filter passes (connectHeaders ws);
     supportedProtocols := protocols;
     outputStream := stream;
     closeRequest := None |}.

(** The code that the connect operation's completion handler stores. *)
Definition connect_code (status : AsyncStatus) (acquire : option exn)
    : HRESULT :=
  match acquire with
  | None => if decide (status = Error) then E_FAIL else S_OK
  | Some (hresult_error code) => code
  | Some other_exception => E_FAIL
  end.


(** The records that a run of sends of non-null messages hands to the
    scheduler when the counter stands at [c] before the first: every
    message takes the next identifier, the non-empty ones become
    records. *)
Fixpoint expected_records (c : Z) (msgs : list (string * AsyncBlock))
    : list websocket_outgoing_message :=
  match msgs with
  | [] => []
  | (text, b) :: rest =>
    (if (String.length text =? 0)%nat then []
     else [new_message text b (next_id c)])
      ++ expected_records (next_id c) rest
  end.

(** The contexts of the work items were allocated before [next_raw]. *)
Definition allocated (w : world) : Prop :=
  forall b raw, (b, raw) ∈ task_queue w -> (raw < next_raw w)%nat.

(** A burst with an empty message in the middle. *)
Definition burst_with_gap : list (string * AsyncBlock) :=
  [("A", 100%nat); ("", 101%nat); ("C", 102%nat)]%string.


(** The codes of the store completions of a sequence of events, in
    order. *)
Definition delivered_codes (es : list event) : list HRESULT :=
  flat_map (fun e => match e with
                     | EvStoreCompleted _ _ results => [store_code results]
                     | _ => []
                     end) es.


(** Whether the context of a work item or store operation belongs to
    session [h]. *)
Definition names_session (w : world) (h : nat) (op : AsyncBlock * nat) : bool :=
  match ptr_cache w !! snd op with
  | Some ctx => Nat.eqb (websocketTask ctx) h
  | None => false
  end.

(** No send or connect operation of session [h] is under way: no work
    item, store operation or connect operation belongs to it. *)
Definition quiescent (h : nat) (w : world) : bool :=
  forallb (fun op => negb (names_session w h op))
          (task_queue w ++ store_ops w)
  && forallb (fun op => negb (Nat.eqb (snd op) h)) (connect_ops w).


(** ** SendMessage calls that overlap *)

(** [Internal_HCWebSocketSendMessageAsync] up to the end of its locked
    region (l.297-327): the guards, the new record with its identifier,
    and under the lock the test of the queue and the push.  The third
    component of the result is the session for which the call goes on to
    the send loop (l.330-333), when [sendInProgress] is false. *)
Definition send_enter
    (websocket : hc_websocket_handle_t) (message : option string)
    (asyncBlock : AsyncBlock) (w : world)
    : option (HRESULT * world * option nat) :=
  match message with
  | None => Some (E_INVALIDARG, w, None)
  | Some text =>
    match singleton w with
    | None => Some (E_HC_NOT_INITIALISED, w, None)
    | Some httpSingleton =>
      match websocket, deref w websocket with
      | Some h, Some ws =>
        let lastId := (m_lastId httpSingleton + 1) mod 2 ^ 64 in
        let msg := {| m_message := text;
                      m_asyncBlock := asyncBlock;
                      m_storeAsyncOpStatus := Started;
                      m_storeAsyncResult := 0;
                      m_id := lastId |} in
        let w1 := set_singleton (Some {| m_lastId := lastId |}) w in
        if (String.length text =? 0)%nat then Some (E_INVALIDARG, w1, None)
        else
          match impl ws with
          | None => None
          | Some websocketTask =>
            let sendInProgress :=
              (0 <? length (m_outgoingMessageQueue websocketTask))%nat in
            let w2 :=
              update_impl h
                (set_queue (m_outgoingMessageQueue websocketTask ++ [msg])) w1 in
            Some (S_OK, w2, if negb sendInProgress then Some h else None)
          end
      | _, _ => None
      end
    end
  end.

(** Events at the grain of the queue lock: a SendMessage call running to
    the end of its locked region, the [i]-th of the calls that are due to
    start sending calling the send loop, and the two events of [event]
    that are no application calls. *)
Inductive call_event :=
| CvEnter (websocket : hc_websocket_handle_t) (message : option string)
          (asyncBlock : AsyncBlock)
| CvStart (i : nat)
| CvDoWork (i : nat) (fault : option HRESULT)
| CvStoreCompleted (i : nat) (status : AsyncStatus) (results : outcome Z).

Section Overlap.

Variable BeginAsync : AsyncBlock -> HRESULT.
Variable ScheduleAsync : AsyncBlock -> HRESULT.

(** The state is the world together with the sessions of the calls that
    have left their locked region with [sendInProgress] false and have
    not called the send loop yet. *)
Definition call_step (e : call_event) (p : world * list nat)
    : option (world * list nat) :=
  match e with
  | CvEnter websocket message asyncBlock =>
    match send_enter websocket message asyncBlock (fst p) with
    | None => None
    | Some (_, w1, Some h) => Some (w1, snd p ++ [h])
    | Some (_, w1, None) => Some (w1, snd p)
    end
  | CvStart i =>
    match snd p !! i with
    | None => None
    | Some h =>
      match MessageWebSocketSendMessage BeginAsync ScheduleAsync h (fst p) with
      | None => None
      | Some w1 => Some (w1, delete i (snd p))
      end
    end
  | CvDoWork i fault =>
    match step BeginAsync ScheduleAsync (EvDoWork i fault) (fst p) with
    | None => None
    | Some w1 => Some (w1, snd p)
    end
  | CvStoreCompleted i status results =>
    match step BeginAsync ScheduleAsync
            (EvStoreCompleted i status results) (fst p) with
    | None => None
    | Some w1 => Some (w1, snd p)
    end
  end.

Fixpoint call_run (es : list call_event) (p : world * list nat)
    : option (world * list nat) :=
  match es with
  | [] => Some p
  | e :: es' =>
    match call_step e p with
    | None => None
    | Some p' => call_run es' p'
    end
  end.

(** No event comes between the locked region of a SendMessage call and
    that call's send loop: whenever a call is due to start sending, the
    next event is a call of the send loop. *)
Fixpoint overlap_free (es : list call_event) (p : world * list nat) : bool :=
  match es with
  | [] => true
  | e :: es' =>
    match snd p, e with
    | [], _ => true
    | _ :: _, CvStart _ => true
    | _ :: _, _ => false
    end
    && match call_step e p with
       | None => true
       | Some p' => overlap_free es' p'
       end
  end.

End Overlap.

(** The whole calls of a sequence of events in which no call is
    overlapped. *)
Definition collapse (es : list call_event) : list event :=
  flat_map (fun e => match e with
                     | CvEnter websocket message asyncBlock =>
                       [EvSend websocket message asyncBlock]
                     | CvStart _ => []
                     | CvDoWork i fault => [EvDoWork i fault]
                     | CvStoreCompleted i status results =>
                       [EvStoreCompleted i status results]
                     end) es.

(** Work items run and store operations completed by an event. *)
Definition works (e : event) : nat :=
  match e with
  | EvDoWork _ _ => 1
  | _ => 0
  end.

Definition stores (e : event) : nat :=
  match e with
  | EvStoreCompleted _ _ _ => 1
  | _ => 0
  end.

(** Two calls on the open session that overlap: the second runs its
    locked region before the first calls the send loop. *)
Definition overlapping_calls : list call_event :=
  [CvEnter (Some 7%nat) (Some "A"%string) 100%nat;
   CvEnter (Some 7%nat) (Some "B"%string) 101%nat;
   CvStart 0].

(** Three calls one after another, one of them with an empty message,
    two work items, and one store completion. *)
Definition calls_in_turn : list call_event :=
  [CvEnter (Some 7%nat) (Some "A"%string) 100%nat; CvStart 0;
   CvEnter (Some 7%nat) (Some EmptyString) 101%nat;
   CvEnter (Some 7%nat) (Some "C"%string) 102%nat; CvStart 0;
   CvDoWork 1 None;
   CvDoWork 0 None;
   CvStoreCompleted 0 Completed (Normal 1)].


(** How many of the events of a run, taken as whole calls, [f] counts. *)
Definition count (f : event -> nat) (es : list call_event) : nat :=
  list_sum (List.map f (collapse es)).

(** * Properties *)

(** ** Elementary facts *)

Lemma FAILED_E_FAIL : FAILED E_FAIL = true.
Proof. reflexivity. Qed.

Lemma FAILED_S_OK : FAILED S_OK = false.
Proof. reflexivity. Qed.

Lemma FAILED_generic_status (platform : HRESULT) :
  FAILED (generic_status platform) = FAILED platform.
Proof. unfold generic_status. destruct (FAILED platform) eqn:E; reflexivity. Qed.

Lemma get_impl_update_impl (h : nat) f (w : world) :
  get_impl (update_impl h f w) h = option_map f (get_impl w h).
Proof.
  unfold get_impl, update_impl; simpl.
  rewrite lookup_alter_eq.
  destruct (sockets w !! h) as [ws|]; simpl; reflexivity.
Qed.

(** ** Completion results *)

(** C7. Connect and send results have one shape: the session reference,
    the generic status computed from the stored platform code (failure
    exactly when that code is a failure), and the platform code itself,
    unchanged.  Both retrievals return such a result whenever their
    guards pass, and the send retrieval writes no other kind of result. *)
Theorem completion_result_uniform
    (sizeof : Z) (w : world) (context : hc_websocket_handle_t)
    (ws : HC_WEBSOCKET) (task : winrt_websocket_impl)
    (raw : nat) (ctx : SendMessageCallbackContent)
    (task' : winrt_websocket_impl) (bufferSize : Z)
    (Hws : deref w context = Some ws)
    (Himpl : impl ws = Some task)
    (Hctx : ptr_cache w !! raw = Some ctx)
    (Htask : get_impl w (websocketTask ctx) = Some task')
    (Hhandle : m_websocketHandle task' <> None)
    (Hsize : sizeof <= bufferSize) :
  WebsocketConnectGetResult context w =
    Some (S_OK,
          {| websocket := context;
             errorCode := generic_status (m_connectAsyncOpResult task);
             platformErrorCode := m_connectAsyncOpResult task |})
  /\ WebsockSendMessageGetResult sizeof (Some raw) bufferSize w =
       Some (S_OK,
             Some {| websocket := m_websocketHandle task';
                     errorCode :=
                       generic_status (m_storeAsyncResult (nextMessage ctx));
                     platformErrorCode :=
                       m_storeAsyncResult (nextMessage ctx) |})
  /\ (forall c b hr res,
        WebsockSendMessageGetResult sizeof c b w = Some (hr, Some res) ->
        hr = S_OK
        /\ errorCode res = generic_status (platformErrorCode res)
        /\ FAILED (errorCode res) = FAILED (platformErrorCode res))
  /\ (forall c hr res,
        WebsocketConnectGetResult c w = Some (hr, res) ->
        hr = S_OK
        /\ websocket res = c
        /\ errorCode res = generic_status (platformErrorCode res)
        /\ FAILED (errorCode res) = FAILED (platformErrorCode res)).
Proof.
  repeat split.
  1: { unfold WebsocketConnectGetResult. rewrite Hws, Himpl. reflexivity. }
  1: { unfold WebsockSendMessageGetResult.
       destruct (Z.ltb_spec bufferSize sizeof) as [Hlt|_]; [lia|].
       rewrite Hctx, Htask.
       destruct (m_websocketHandle task') as [k|]; [reflexivity|congruence]. }
  all: unfold WebsockSendMessageGetResult, WebsocketConnectGetResult in H.
  all: repeat (case_match; simplify_eq); simpl.
  all: unfold generic_status; try rewrite FAILED_E_FAIL; try rewrite FAILED_S_OK.
  all: repeat (case_match; simplify_eq); congruence.
Qed.

Lemma completion_result_uniform_witness :
  WebsocketConnectGetResult (Some 7%nat) after_failed_send =
    Some (S_OK, {| websocket := Some 7%nat; errorCode := S_OK;
                   platformErrorCode := S_OK |})
  /\ WebsockSendMessageGetResult 24 (Some 0%nat) 24 after_failed_send =
       Some (S_OK, Some {| websocket := Some 7%nat; errorCode := E_FAIL;
                           platformErrorCode := E_FAIL |}).
Proof.
  edestruct completion_result_uniform
    with (sizeof := 24) (w := after_failed_send) (context := Some 7%nat)
         (raw := 0%nat) (bufferSize := 24)
    as [H1 [H2 _]].
  - vm_compute. reflexivity.
  - vm_compute. reflexivity.
  - vm_compute. reflexivity.
  - vm_compute. reflexivity.
  - vm_compute. discriminate.
  - lia.
  - split; [exact H1 | exact H2].
Defined.

(** ** Disconnect *)

(** C4, as the code has it. A null session handle is an invalid argument;
    a session without an implementation object or without a transport
    object is reported as [E_UNEXPECTED]; otherwise the transport is asked
    to close with the low 16 bits of the status code (the code itself
    when it fits) and an empty reason, and the call succeeds. *)
Theorem disconnect_classification
    (w : world) (h : nat) (ws : HC_WEBSOCKET) (closeStatus : Z)
    (Hws : sockets w !! h = Some ws) :
  Internal_HCWebSocketDisconnect None closeStatus w = Some (E_INVALIDARG, w)
  /\ (session_transport ws = None ->
      Internal_HCWebSocketDisconnect (Some h) closeStatus w
        = Some (E_UNEXPECTED, w))
  /\ (forall s, session_transport ws = Some s ->
      exists w',
        Internal_HCWebSocketDisconnect (Some h) closeStatus w = Some (S_OK, w')
        /\ transport_of w' h = Some (Close (closeStatus mod 2 ^ 16) [] s)
        /\ (0 <= closeStatus < 2 ^ 16 ->
            option_map closeRequest (transport_of w' h)
              = Some (Some (closeStatus, [])))).
Proof.
  unfold session_transport.
  split; [reflexivity|]. split.
  - intros Hnone. unfold Internal_HCWebSocketDisconnect. rewrite Hws.
    destruct (impl ws) as [task|]; [|reflexivity].
    rewrite Hnone. reflexivity.
  - intros s Hs. unfold Internal_HCWebSocketDisconnect. rewrite Hws.
    destruct (impl ws) as [task|] eqn:Himpl; [|discriminate].
    rewrite Hs. eexists. split; [reflexivity|].
    unfold transport_of. rewrite get_impl_update_impl.
    unfold get_impl. rewrite Hws, Himpl. simpl.
    split; [reflexivity|].
    intros Hrange. rewrite Z.mod_small by lia. reflexivity.
Qed.

Lemma disconnect_classification_witness :
  Internal_HCWebSocketDisconnect (Some 7%nat) 1000 no_transport_world
    = Some (E_UNEXPECTED, no_transport_world)
  /\ exists w',
       Internal_HCWebSocketDisconnect (Some 7%nat) 1000 open_world
         = Some (S_OK, w')
       /\ option_map closeRequest (transport_of w' 7)
            = Some (Some (1000, [])).
Proof.
  split.
  - eapply (disconnect_classification no_transport_world 7).
    + vm_compute. reflexivity.
    + vm_compute. reflexivity.
  - edestruct disconnect_classification
      with (w := open_world) (h := 7%nat) (closeStatus := 1000)
      as [_ [_ H]]; [vm_compute; reflexivity|].
    destruct (H (new_MessageWebSocket 1)) as [w' [H1 [_ H3]]];
      [vm_compute; reflexivity|].
    exists w'. split; [exact H1 | apply H3; lia].
Defined.

(** C4, as the claim words it, fails: on a session that has no transport
    object Disconnect answers [E_UNEXPECTED], which is not the
    invalid-argument code. *)
Lemma disconnect_no_transport_not_invalid_argument :
  transport_of no_transport_world 7 = None
  /\ option_map fst
       (Internal_HCWebSocketDisconnect (Some 7%nat) 1000 no_transport_world)
     = Some E_UNEXPECTED
  /\ option_map fst
       (Internal_HCWebSocketDisconnect (Some 7%nat) 1000 no_transport_world)
     <> Some E_INVALIDARG.
Proof.
  split; [vm_compute; reflexivity|].
  split; [vm_compute; reflexivity|].
  vm_compute. discriminate.
Qed.

(** ** The guards of SendMessage *)

Lemma length_zero_empty (text : string) :
  String.length text = 0%nat -> text = EmptyString.
Proof. destruct text; [reflexivity | discriminate]. Qed.

(** What a rejected empty send does once the library is initialised: one
    identifier is taken and nothing else changes. *)
Lemma send_empty_initialised
    (BeginAsync ScheduleAsync : AsyncBlock -> HRESULT)
    (w : world) (websocket : hc_websocket_handle_t) (asyncBlock : AsyncBlock)
    (s : http_singleton) (ws : HC_WEBSOCKET) :
  singleton w = Some s -> deref w websocket = Some ws ->
  Internal_HCWebSocketSendMessageAsync BeginAsync ScheduleAsync
    websocket (Some EmptyString) asyncBlock w
  = Some (E_INVALIDARG,
          set_singleton (Some {| m_lastId := (m_lastId s + 1) mod 2 ^ 64 |}) w).
Proof.
  intros Hs Hws. unfold Internal_HCWebSocketSendMessageAsync.
  rewrite Hs.
  destruct websocket as [h|]; [|discriminate].
  rewrite Hws. reflexivity.
Qed.

(** C3, as the code has it. A null message is rejected with
    [E_INVALIDARG] and leaves the whole state alone.  A zero-length
    message is rejected with [E_INVALIDARG] once the library is
    initialised, and with [E_HC_NOT_INITIALISED] before that.  In all
    three cases no record is enqueued (every session, and so every queue,
    is unchanged) and nothing is handed to the scheduler or the
    transport. *)
Theorem send_rejects_null_and_empty
    (BeginAsync ScheduleAsync : AsyncBlock -> HRESULT)
    (w : world) (websocket : hc_websocket_handle_t) (asyncBlock : AsyncBlock)
    (text : string)
    (Hlen : String.length text = 0%nat) :
  Internal_HCWebSocketSendMessageAsync BeginAsync ScheduleAsync
      websocket None asyncBlock w = Some (E_INVALIDARG, w)
  /\ (singleton w = None ->
      Internal_HCWebSocketSendMessageAsync BeginAsync ScheduleAsync
        websocket (Some text) asyncBlock w = Some (E_HC_NOT_INITIALISED, w))
  /\ (forall s ws,
        singleton w = Some s -> deref w websocket = Some ws ->
        exists w',
          Internal_HCWebSocketSendMessageAsync BeginAsync ScheduleAsync
            websocket (Some text) asyncBlock w = Some (E_INVALIDARG, w')
          /\ sockets w' = sockets w
          /\ ptr_cache w' = ptr_cache w
          /\ task_queue w' = task_queue w
          /\ store_ops w' = store_ops w
          /\ completions w' = completions w).
Proof.
  apply length_zero_empty in Hlen. subst text.
  split; [reflexivity|]. split.
  - intros Hs. unfold Internal_HCWebSocketSendMessageAsync.
    rewrite Hs. reflexivity.
  - intros s ws Hs Hws.
    rewrite (send_empty_initialised _ _ _ _ _ s ws Hs Hws).
    eexists. split; [reflexivity|]. repeat split.
Qed.

Lemma send_rejects_null_and_empty_witness :
  Internal_HCWebSocketSendMessageAsync always_ok always_ok
      (Some 7%nat) None 100%nat open_world = Some (E_INVALIDARG, open_world)
  /\ Internal_HCWebSocketSendMessageAsync always_ok always_ok
       (Some 7%nat) (Some EmptyString) 100%nat uninitialised_world
     = Some (E_HC_NOT_INITIALISED, uninitialised_world)
  /\ exists w',
       Internal_HCWebSocketSendMessageAsync always_ok always_ok
         (Some 7%nat) (Some EmptyString) 100%nat open_world
       = Some (E_INVALIDARG, w')
       /\ sockets w' = sockets open_world
       /\ task_queue w' = [].
Proof.
  split; [|split].
  - apply (send_rejects_null_and_empty always_ok always_ok open_world
             (Some 7%nat) 100%nat EmptyString); reflexivity.
  - apply (send_rejects_null_and_empty always_ok always_ok uninitialised_world
             (Some 7%nat) 100%nat EmptyString); reflexivity.
  - edestruct send_rejects_null_and_empty
      with (BeginAsync := always_ok) (ScheduleAsync := always_ok)
           (w := open_world) (websocket := Some 7%nat)
           (asyncBlock := 100%nat) (text := EmptyString)
      as [_ [_ H]]; [reflexivity|].
    edestruct H as [w' [H1 [H2 [_ [H4 _]]]]];
      [vm_compute; reflexivity | vm_compute; reflexivity |].
    exists w'. split; [exact H1|]. split; [exact H2 | exact H4].
Defined.

(** C3, as the claim words it, fails: a zero-length message sent before
    the library is initialised is answered with [E_HC_NOT_INITIALISED],
    not with the invalid-argument code. *)
Lemma empty_send_uninitialised_not_invalid_argument :
  String.length EmptyString = 0%nat
  /\ option_map fst
       (Internal_HCWebSocketSendMessageAsync always_ok always_ok
          (Some 7%nat) (Some EmptyString) 100%nat uninitialised_world)
     = Some E_HC_NOT_INITIALISED
  /\ option_map fst
       (Internal_HCWebSocketSendMessageAsync always_ok always_ok
          (Some 7%nat) (Some EmptyString) 100%nat uninitialised_world)
     <> Some E_INVALIDARG.
Proof.
  split; [reflexivity|].
  split; [vm_compute; reflexivity|].
  vm_compute. discriminate.
Qed.

(** ** Identifiers *)

Lemma length_nonzero (text : string) :
  text <> EmptyString -> (String.length text =? 0)%nat = false.
Proof. destruct text; [congruence | reflexivity]. Qed.

(** What an accepted send does: one identifier is taken, and the record
    is appended to the queue, from which the send loop takes the front
    record at once when the queue was empty. *)
Lemma send_accepted
    (BeginAsync ScheduleAsync : AsyncBlock -> HRESULT)
    (w : world) (h : nat) (s : http_singleton) (ws : HC_WEBSOCKET)
    (task : winrt_websocket_impl) (text : string) (asyncBlock : AsyncBlock) :
  singleton w = Some s -> sockets w !! h = Some ws -> impl ws = Some task ->
  text <> EmptyString ->
  let msg := new_message text asyncBlock (next_id (m_lastId s)) in
  exists w',
    Internal_HCWebSocketSendMessageAsync BeginAsync ScheduleAsync
      (Some h) (Some text) asyncBlock w = Some (S_OK, w')
    /\ singleton w' = Some {| m_lastId := next_id (m_lastId s) |}
    /\ store_ops w' = store_ops w
    /\ completions w' = completions w
    /\ is_Some (get_impl w' h)
    /\ match m_outgoingMessageQueue task with
       | [] =>
         queue_of w' h = []
         /\ ptr_cache w' =
              <[next_raw w := {| nextMessage := msg; websocketTask := h |}]>
                (ptr_cache w)
         /\ next_raw w' = S (next_raw w)
         /\ task_queue w' =
              if decide (BeginAsync asyncBlock = S_OK
                         /\ ScheduleAsync asyncBlock = S_OK)
              then task_queue w ++ [(asyncBlock, next_raw w)]
              else task_queue w
       | q =>
         queue_of w' h = q ++ [msg]
         /\ ptr_cache w' = ptr_cache w
         /\ next_raw w' = next_raw w
         /\ task_queue w' = task_queue w
       end.
Proof.
  intros Hs Hws Himpl Htext msg.
  unfold Internal_HCWebSocketSendMessageAsync.
  rewrite Hs. simpl. rewrite Hws, Himpl.
  rewrite (length_nonzero _ Htext).
  fold (next_id (m_lastId s)).
  fold (new_message text asyncBlock (next_id (m_lastId s))). fold msg.
  assert (Hget : forall f x, sockets x = sockets w ->
            get_impl (update_impl h f x) h = Some (f task)).
  { intros f x Hx. rewrite get_impl_update_impl. unfold get_impl.
    rewrite Hx, Hws, Himpl. reflexivity. }
  destruct (m_outgoingMessageQueue task) as [|m0 q] eqn:Hq.
  - simpl. unfold MessageWebSocketSendMessage.
    rewrite Hget by reflexivity. simpl.
    set (w2 := update_impl h (set_queue [msg]) _).
    assert (Hafter : get_impl (update_impl h (set_queue []) w2) h
                     = Some (set_queue [] (set_queue [msg] task))).
    { rewrite get_impl_update_impl. subst w2.
      rewrite Hget by reflexivity. reflexivity. }
    assert (Hempty : queue_of (update_impl h (set_queue []) w2) h = []).
    { unfold queue_of. rewrite Hafter. reflexivity. }
    assert (Hsome : is_Some (get_impl (update_impl h (set_queue []) w2) h)).
    { rewrite Hafter. eauto. }
    destruct (decide (BeginAsync asyncBlock = S_OK)) as [Hb|Hb];
      [destruct (decide (ScheduleAsync asyncBlock = S_OK)) as [Hc|Hc]|];
      (eexists; split; [reflexivity|]); simpl;
      repeat split; try exact Hempty; try exact Hsome;
      case_decide; try reflexivity; tauto.
  - simpl. eexists. split; [reflexivity|]. simpl.
    set (msgs := m0 :: q ++ [msg]).
    assert (Hafter : get_impl
                       (update_impl h (set_queue msgs)
                          (set_singleton
                             (Some {| m_lastId := next_id (m_lastId s) |}) w)) h
                     = Some (set_queue msgs task)).
    { apply Hget. reflexivity. }
    repeat split.
    + rewrite Hafter. eauto.
    + unfold queue_of. rewrite Hafter. reflexivity.
Qed.

(** C10. With the library initialised, a send with a non-null message
    takes one identifier from the counter of the process singleton
    whether or not it is then rejected: the counter is advanced before
    the length of the message is looked at.  So after a rejected empty
    send on one session, the record of the next accepted send, on the
    same or on another session, carries the identifier two past the
    counter's earlier value; the value in between is never used. *)
Theorem identifier_consumed_by_rejected_send
    (BeginAsync ScheduleAsync : AsyncBlock -> HRESULT)
    (w : world) (h1 h2 : nat) (s : http_singleton)
    (ws1 ws2 : HC_WEBSOCKET) (task2 : winrt_websocket_impl)
    (text : string) (b1 b2 : AsyncBlock)
    (Hs : singleton w = Some s)
    (Hws1 : sockets w !! h1 = Some ws1)
    (Hws2 : sockets w !! h2 = Some ws2)
    (Himpl2 : impl ws2 = Some task2)
    (Htext : text <> EmptyString) :
  exists w1 w2,
    Internal_HCWebSocketSendMessageAsync BeginAsync ScheduleAsync
      (Some h1) (Some EmptyString) b1 w = Some (E_INVALIDARG, w1)
    /\ singleton w1 = Some {| m_lastId := next_id (m_lastId s) |}
    /\ sockets w1 = sockets w
    /\ Internal_HCWebSocketSendMessageAsync BeginAsync ScheduleAsync
         (Some h2) (Some text) b2 w1 = Some (S_OK, w2)
    /\ singleton w2 = Some {| m_lastId := next_id (next_id (m_lastId s)) |}
    /\ let msg := new_message text b2 (next_id (next_id (m_lastId s))) in
       match m_outgoingMessageQueue task2 with
       | [] => ptr_cache w2 !! next_raw w
                 = Some {| nextMessage := msg; websocketTask := h2 |}
       | q => queue_of w2 h2 = q ++ [msg]
       end.
Proof.
  pose proof (send_empty_initialised BeginAsync ScheduleAsync w (Some h1) b1
                s ws1 Hs Hws1) as Hsend1.
  set (w1 := set_singleton _ w) in Hsend1.
  assert (Hsing1 : singleton w1 = Some {| m_lastId := next_id (m_lastId s) |})
    by reflexivity.
  assert (Hsock1 : sockets w1 = sockets w) by reflexivity.
  assert (Hraw1 : next_raw w1 = next_raw w) by reflexivity.
  assert (Hws2' : sockets w1 !! h2 = Some ws2) by (rewrite Hsock1; exact Hws2).
  destruct (send_accepted BeginAsync ScheduleAsync w1 h2 _ ws2 task2 text b2
              Hsing1 Hws2' Himpl2 Htext)
    as [w2 [Hsend2 [Hsing2 [_ [_ [_ Hshape]]]]]].
  exists w1, w2.
  repeat (split; [assumption|]).
  cbv zeta.
  destruct (m_outgoingMessageQueue task2) as [|m0 q].
  - destruct Hshape as [_ [Hc _]]. rewrite Hc.
    change (next_raw w1) with (next_raw w). apply lookup_insert_eq.
  - destruct Hshape as [Hq _]. exact Hq.
Qed.

Lemma identifier_consumed_by_rejected_send_witness :
  exists w1 w2,
    Internal_HCWebSocketSendMessageAsync always_ok always_ok
      (Some 7%nat) (Some EmptyString) 100%nat two_sessions
      = Some (E_INVALIDARG, w1)
    /\ Internal_HCWebSocketSendMessageAsync always_ok always_ok
         (Some 8%nat) (Some "x"%string) 101%nat w1 = Some (S_OK, w2)
    /\ option_map (fun c => m_id (nextMessage c)) (ptr_cache w2 !! 0%nat)
       = Some 43.
Proof.
  edestruct identifier_consumed_by_rejected_send
    with (BeginAsync := always_ok) (ScheduleAsync := always_ok)
         (w := two_sessions) (h1 := 7%nat) (h2 := 8%nat)
         (text := "x"%string) (b1 := 100%nat) (b2 := 101%nat)
    as [w1 [w2 [H1 [_ [_ [H4 [_ H6]]]]]]].
  - vm_compute. reflexivity.
  - vm_compute. reflexivity.
  - vm_compute. reflexivity.
  - vm_compute. reflexivity.
  - discriminate.
  - exists w1, w2. split; [exact H1|]. split; [exact H4|].
    simpl in H6. change (next_raw two_sessions) with 0%nat in H6.
    rewrite H6. vm_compute. reflexivity.
Defined.

(** ** Receiving *)

(** C9. [OnReceive] never lets an exception out.  When the reader has no
    bytes, no callback is invoked.  When it has bytes and reading
    succeeds, the registered callback is invoked exactly once, with the
    session and a buffer holding exactly those bytes.  When obtaining the
    reader, asking for its length or reading raises, no callback is
    invoked. *)
Theorem on_receive_drop_semantics
    (m_websocket : hc_websocket_handle_t) (messageFunc : bool)
    (func_fault : option exn) (args : outcome DataReader) :
  snd (OnReceive m_websocket messageFunc func_fault args) = Normal tt
  /\ (forall reader,
        args = Normal reader -> unconsumed reader = [] ->
        fst (OnReceive m_websocket messageFunc func_fault args) = [])
  /\ (forall reader,
        args = Normal reader -> unconsumed reader <> [] ->
        length_fault reader = None -> read_fault reader = None ->
        messageFunc = true ->
        fst (OnReceive m_websocket messageFunc func_fault args)
          = [(m_websocket, unconsumed reader)])
  /\ (forall e, args = Throw e ->
        fst (OnReceive m_websocket messageFunc func_fault args) = [])
  /\ (forall reader,
        args = Normal reader ->
        length_fault reader <> None \/ read_fault reader <> None ->
        fst (OnReceive m_websocket messageFunc func_fault args) = []).
Proof.
  unfold OnReceive. repeat split.
  - destruct (OnReceive_try _ _ _ _). reflexivity.
  - intros reader -> Hempty. unfold OnReceive_try, UnconsumedBufferLength.
    rewrite Hempty. destruct (length_fault reader); reflexivity.
  - intros reader -> Hbytes Hlen Hread ->.
    unfold OnReceive_try, UnconsumedBufferLength, ReadBytes.
    rewrite Hlen, Hread. simpl.
    destruct (unconsumed reader) as [|b bs] eqn:Hu; [congruence|].
    change (0 <? length (b :: bs))%nat with true. cbv iota.
    rewrite Nat.leb_refl, firstn_all. reflexivity.
  - intros e ->. reflexivity.
  - intros reader -> Hfault.
    unfold OnReceive_try, UnconsumedBufferLength, ReadBytes.
    destruct (length_fault reader) as [e1|]; [reflexivity|].
    destruct (read_fault reader) as [e2|]; [|destruct Hfault; congruence].
    simpl. destruct (0 <? length (unconsumed reader))%nat; reflexivity.
Qed.

Lemma on_receive_drop_semantics_witness :
  OnReceive (Some 7%nat) true None
    (Normal {| unconsumed := [x68; x69]; length_fault := None;
               read_fault := None |})
    = ([(Some 7%nat, [x68; x69])], Normal tt)
  /\ fst (OnReceive (Some 7%nat) true None
            (Normal {| unconsumed := []; length_fault := None;
                       read_fault := None |})) = []
  /\ fst (OnReceive (Some 7%nat) true None
            (Normal {| unconsumed := [x68; x69]; length_fault := None;
                       read_fault := Some other_exception |})) = [].
Proof.
  split; [|split].
  - pose proof (on_receive_drop_semantics (Some 7%nat) true None
                  (Normal {| unconsumed := [x68; x69]; length_fault := None;
                             read_fault := None |})) as [H1 [_ [H3 _]]].
    specialize (H3 _ eq_refl ltac:(discriminate) eq_refl eq_refl eq_refl).
    apply injective_projections; [exact H3 | exact H1].
  - pose proof (on_receive_drop_semantics (Some 7%nat) true None
                  (Normal {| unconsumed := []; length_fault := None;
                             read_fault := None |})) as [_ [H2 _]].
    exact (H2 _ eq_refl eq_refl).
  - pose proof (on_receive_drop_semantics (Some 7%nat) true None
                  (Normal {| unconsumed := [x68; x69]; length_fault := None;
                             read_fault := Some other_exception |}))
      as [_ [_ [_ [_ H5]]]].
    apply (H5 _ eq_refl). right. discriminate.
Defined.

(** ** Connect completion *)

(** C8. The completion handler of the connect operation always returns
    normally and completes the caller's operation once.  If acquiring the
    writer raises, the writer is left as it was and the stored outcome is
    the exception's code, or [E_FAIL] for an exception without one; a
    failure whenever the exception's code is one.  Otherwise the session
    holds a fresh writer over the transport's output stream, and the
    stored outcome is [E_FAIL] when the transport reported an error and
    [S_OK] when it did not. *)
Theorem connect_completion_outcome
    (asyncBlock : AsyncBlock) (h : nat) (status : AsyncStatus)
    (acquire : option exn) (w : world)
    (task : winrt_websocket_impl) (s : MessageWebSocket)
    (Htask : get_impl w h = Some task)
    (Hs : m_messageWebSocket task = Some s) :
  exists w' task',
    connect_completed asyncBlock h status acquire w = Some (Normal w')
    /\ completions w' = completions w ++ [(asyncBlock, S_OK)]
    /\ get_impl w' h = Some task'
    /\ (acquire = None ->
        m_messageDataWriter task' = new_DataWriter (Some (outputStream s))
        /\ (status = Error ->
            m_connectAsyncOpResult task' = E_FAIL
            /\ FAILED (m_connectAsyncOpResult task') = true)
        /\ (status <> Error ->
            m_connectAsyncOpResult task' = S_OK
            /\ FAILED (m_connectAsyncOpResult task') = false))
    /\ (forall code, acquire = Some (hresult_error code) ->
        m_connectAsyncOpResult task' = code
        /\ m_messageDataWriter task' = m_messageDataWriter task
        /\ (FAILED code = true ->
            FAILED (m_connectAsyncOpResult task') = true))
    /\ (acquire = Some other_exception ->
        m_connectAsyncOpResult task' = E_FAIL
        /\ m_messageDataWriter task' = m_messageDataWriter task
        /\ FAILED (m_connectAsyncOpResult task') = true).
Proof.
  unfold connect_completed. rewrite Htask, Hs.
  eexists. eexists. split; [reflexivity|].
  split; [reflexivity|].
  split.
  { change (get_impl (CompleteAsync ?b ?r ?x) h) with (get_impl x h).
    rewrite get_impl_update_impl, Htask. reflexivity. }
  destruct acquire as [[code|]|]; simpl.
  - split; [discriminate|]. split; [|discriminate].
    intros c [= ->]. repeat split. auto.
  - split; [discriminate|]. split; [discriminate|].
    intros _. repeat split.
  - split; [|split; discriminate].
    intros _. split; [reflexivity|].
    split; intros Hst; case_decide; try contradiction; split; reflexivity.
Qed.

Lemma connect_completion_outcome_witness :
  exists w' task',
    connect_completed 100%nat 7%nat Completed None connecting_world
      = Some (Normal w')
    /\ completions w' = [(100%nat, S_OK)]
    /\ get_impl w' 7 = Some task'
    /\ m_messageDataWriter task' = new_DataWriter (Some 1%nat)
    /\ m_connectAsyncOpResult task' = S_OK.
Proof.
  edestruct connect_completion_outcome
    with (asyncBlock := 100%nat) (h := 7%nat) (status := Completed)
         (acquire := @None exn) (w := connecting_world)
    as [w' [task' [H1 [H2 [H3 [H4 _]]]]]].
  - vm_compute. reflexivity.
  - vm_compute. reflexivity.
  - destruct (H4 eq_refl) as [Hw [_ Hok]].
    destruct (Hok ltac:(discriminate)) as [Hres _].
    exists w', task'. repeat split; assumption.
Defined.

(** ** Connect: headers and sub-protocols *)

Lemma read_until_split (delim : wchar_t) (s : wstring) :
  forall t r, read_until delim s = (t, r) ->
  split_on delim s =
    t :: match r with
         | Some rest => split_on delim rest
         | None => []
         end.
Proof.
  induction s as [|c s IH]; intros t r Hread; simpl in *.
  - injection Hread as <- <-. reflexivity.
  - destruct (c =? delim)%N.
    + injection Hread as <- <-. reflexivity.
    + destruct (read_until delim s) as [t0 r0].
      injection Hread as <- <-.
      rewrite (IH t0 r0 eq_refl). reflexivity.
Qed.

Lemma read_until_shorter (delim : wchar_t) (s : wstring) :
  forall t rest, read_until delim s = (t, Some rest) ->
  (length rest < length s)%nat.
Proof.
  induction s as [|c s IH]; intros t rest Hread; simpl in *.
  - discriminate.
  - destruct (c =? delim)%N.
    + injection Hread as _ <-. lia.
    + destruct (read_until delim s) as [t0 r0].
      injection Hread as _ ->.
      specialize (IH t0 rest eq_refl). lia.
Qed.

Section SubProtocolFacts.

Variable utf16_from_utf8 : string -> wstring.
Variable trim_whitespace : wstring -> wstring.

(** Trimming the empty text leaves it empty. *)
Hypothesis trim_empty : trim_whitespace [] = [].

Lemma spec_subprotocols_cons (t : wstring) (ts : list wstring) :
  List.filter nonempty (List.map trim_whitespace (t :: ts)) =
    match trim_whitespace t with
    | [] => []
    | _ :: _ => [trim_whitespace t]
    end ++ List.filter nonempty (List.map trim_whitespace ts).
Proof. simpl. destruct (trim_whitespace t); reflexivity. Qed.

(** The loop, given enough fuel, computes what the spec describes. *)
Lemma parse_loop_spec (fuel : nat) :
  forall (buf token : wstring) (values : list wstring),
  (length buf + 2 <= fuel)%nat ->
  parse_loop trim_whitespace fuel
             {| rdbuf := buf; eofbit := false; failbit := false |}
             token values
    = Some (values ++ spec_subprotocols trim_whitespace buf).
Proof.
  induction fuel as [|fuel IH]; intros buf token values Hfuel; [lia|].
  destruct buf as [|c r].
  - unfold spec_subprotocols. simpl. rewrite trim_empty. simpl.
    rewrite app_nil_r. reflexivity.
  - cbn [parse_loop getline eofbit failbit rdbuf orb].
    destruct (read_until comma (c :: r)) as [t [rest|]] eqn:Hread.
    + cbn [failbit].
      pose proof (read_until_shorter _ _ _ _ Hread) as Hshort.
      rewrite IH by (simpl in *; lia).
      unfold spec_subprotocols at 2.
      rewrite (read_until_split _ _ _ _ Hread), spec_subprotocols_cons.
      fold (spec_subprotocols trim_whitespace rest).
      destruct (trim_whitespace t); [reflexivity|].
      rewrite <- app_assoc. reflexivity.
    + cbn [failbit].
      destruct fuel as [|fuel]; [simpl in Hfuel; lia|].
      cbn [parse_loop getline eofbit failbit orb].
      unfold spec_subprotocols.
      rewrite (read_until_split _ _ _ _ Hread), spec_subprotocols_cons.
      simpl. rewrite app_nil_r.
      destruct (trim_whitespace t); [rewrite app_nil_r|]; reflexivity.
Qed.

Lemma parse_subprotocols_spec (subProtocol : string) :
  parse_subprotocols utf16_from_utf8 trim_whitespace subProtocol
    = Some (spec_subprotocols trim_whitespace
              (c_str (utf16_from_utf8 subProtocol))).
Proof.
  unfold parse_subprotocols. rewrite parse_loop_spec by lia. reflexivity.
Qed.

Lemma fold_Append (protocols : list wstring) :
  forall s,
  supportedProtocols (fold_left (fun s value => Append value s) protocols s)
    = supportedProtocols s ++ protocols
  /\ requestHeaders (fold_left (fun s value => Append value s) protocols s)
    = requestHeaders s.
Proof.
  induction protocols as [|p ps IH]; intros s; simpl.
  - rewrite app_nil_r. split; reflexivity.
  - destruct (IH (Append p s)) as [H1 H2]. rewrite H1, H2. simpl.
    rewrite <- app_assoc. split; reflexivity.
Qed.

Lemma header_loop_from (ws : HC_WEBSOCKET) (rest : list (string * string)) :
  forall pre s,
  connectHeaders ws = pre ++ rest ->
  requestHeaders
    (fold_left (set_header_at ws) (seq (length pre) (length rest)) s)
    = requestHeaders s ++ List.filter passes rest
  /\ supportedProtocols
      (fold_left (set_header_at ws) (seq (length pre) (length rest)) s)
    = supportedProtocols s.
Proof.
  induction rest as [|[name value] rest IH]; intros pre s Hsplit.
  - simpl. rewrite app_nil_r. split; reflexivity.
  - cbn [length seq fold_left].
    assert (Hat : set_header_at ws s (length pre) =
                  if passes (name, value)
                  then SetRequestHeader name value s else s).
    { unfold set_header_at, HCWebSocketGetHeaderAtIndex.
      rewrite Hsplit, lookup_app_r by lia.
      replace (length pre - length pre)%nat with 0%nat by lia.
      reflexivity. }
    rewrite Hat.
    specialize (IH (pre ++ [(name, value)])).
    rewrite length_app in IH. simpl in IH.
    replace (length pre + 1)%nat with (S (length pre)) in IH by lia.
    destruct (IH (if passes (name, value)
                  then SetRequestHeader name value s else s)) as [H1 H2].
    { rewrite <- app_assoc. exact Hsplit. }
    rewrite H1, H2. simpl.
    destruct (passes (name, value)); simpl.
    + rewrite <- app_assoc. split; reflexivity.
    + split; reflexivity.
Qed.

Lemma apply_headers_log (ws : HC_WEBSOCKET) (s : MessageWebSocket) :
  requestHeaders (apply_headers ws s)
    = requestHeaders s ++ List.filter passes (connectHeaders ws)
  /\ supportedProtocols (apply_headers ws s) = supportedProtocols s.
Proof.
  unfold apply_headers, HCWebSocketGetNumHeaders.
  apply (header_loop_from ws (connectHeaders ws) [] s). reflexivity.
Qed.

(** What [WebsocketConnectDoWork] leaves in the transport object. *)
Lemma connect_configures_transport
    (stream : nat)
    (fault : option HRESULT) (asyncBlock : AsyncBlock) (h : nat) (w : world)
    (ws : HC_WEBSOCKET) (task : winrt_websocket_impl) :
  sockets w !! h = Some ws -> impl ws = Some task ->
  exists hr w' s,
    WebsocketConnectDoWork utf16_from_utf8 trim_whitespace stream fault
      asyncBlock (Some h) w = Some (hr, w')
    /\ transport_of w' h = Some s
    /\ requestHeaders s = List.filter passes (connectHeaders ws)
    /\ supportedProtocols s
       = spec_subprotocols trim_whitespace
           (c_str (utf16_from_utf8 (subProtocol ws))).
Proof.
  intros Hws Himpl. unfold WebsocketConnectDoWork. simpl.
  rewrite Hws, Himpl, parse_subprotocols_spec.
  set (protocols := spec_subprotocols _ _).
  set (s2 := fold_left _ protocols _).
  assert (Hlog : requestHeaders s2 = List.filter passes (connectHeaders ws)
                 /\ supportedProtocols s2 = protocols).
  { subst s2.
    destruct (fold_Append protocols
                (apply_headers ws (new_MessageWebSocket stream))) as [H1 H2].
    destruct (apply_headers_log ws (new_MessageWebSocket stream)) as [H3 H4].
    rewrite H1, H2, H3, H4. split; reflexivity. }
  assert (Hget : forall x,
            transport_of
              (update_impl h
                 (fun t => set_context (Some h) (set_socket (Some s2) t)) x) h
            = option_map (fun _ => s2) (get_impl x h)).
  { intros x. unfold transport_of. rewrite get_impl_update_impl.
    destruct (get_impl x h); reflexivity. }
  assert (Hsome : get_impl w h = Some task).
  { unfold get_impl. rewrite Hws. exact Himpl. }
  destruct fault as [code|]; do 3 eexists;
    (split; [reflexivity|]); (split; [|exact Hlog]).
  - rewrite Hget, Hsome. reflexivity.
  - change (transport_of (set_connect_ops ?q ?x) h) with (transport_of x h).
    rewrite Hget, Hsome. reflexivity.
Qed.

End SubProtocolFacts.

(** C5. [parse_subprotocols] returns the comma-separated entries of the
    sub-protocol text, each trimmed by [trim_whitespace], without the
    entries that are empty after trimming, in the order of the text;
    Connect appends exactly these, in that order, to the supported
    protocols of the fresh transport.  For "chat, superchat", with a
    trimming that removes the space around the two names, the list is
    "chat", "superchat". *)
Theorem subprotocols_parsed_and_registered
    (utf16_from_utf8 : string -> wstring)
    (trim_whitespace : wstring -> wstring) (stream : nat)
    (fault : option HRESULT) (asyncBlock : AsyncBlock) (h : nat) (w : world)
    (ws : HC_WEBSOCKET) (task : winrt_websocket_impl)
    (Htrim : trim_whitespace [] = [])
    (Hws : sockets w !! h = Some ws)
    (Himpl : impl ws = Some task) :
  (forall subProtocol,
     parse_subprotocols utf16_from_utf8 trim_whitespace subProtocol =
       Some (List.filter nonempty
               (List.map trim_whitespace
                  (split_on comma (c_str (utf16_from_utf8 subProtocol))))))
  /\ (exists hr w' s,
        WebsocketConnectDoWork utf16_from_utf8 trim_whitespace stream fault
          asyncBlock (Some h) w = Some (hr, w')
        /\ transport_of w' h = Some s
        /\ parse_subprotocols utf16_from_utf8 trim_whitespace (subProtocol ws)
             = Some (supportedProtocols s))
  /\ (utf16_from_utf8 "chat, superchat" = widen "chat, superchat" ->
      trim_whitespace (widen "chat") = widen "chat" ->
      trim_whitespace (widen " superchat") = widen "superchat" ->
      parse_subprotocols utf16_from_utf8 trim_whitespace "chat, superchat"
        = Some [widen "chat"; widen "superchat"]).
Proof.
  split; [|split].
  - intros subProtocol. apply parse_subprotocols_spec. exact Htrim.
  - destruct (connect_configures_transport utf16_from_utf8 trim_whitespace
                Htrim stream fault asyncBlock h w ws task Hws Himpl)
      as [hr [w' [s [H1 [H2 [_ H4]]]]]].
    exists hr, w', s.
    rewrite (parse_subprotocols_spec _ _ Htrim), H4. auto.
  - intros Hascii Hchat Hsuper.
    rewrite (parse_subprotocols_spec _ _ Htrim), Hascii.
    unfold spec_subprotocols.
    change (split_on comma (c_str (widen "chat, superchat")))
      with [widen "chat"; widen " superchat"].
    cbn [List.map]. rewrite Hchat, Hsuper. reflexivity.
Qed.

Lemma subprotocols_parsed_and_registered_witness :
  parse_subprotocols widen trim_surrounding_whitespace "chat, superchat"
    = Some [widen "chat"; widen "superchat"]
  /\ exists hr w' s,
       WebsocketConnectDoWork widen trim_surrounding_whitespace 1 None
         100%nat (Some 7%nat) open_world = Some (hr, w')
       /\ transport_of w' 7 = Some s
       /\ supportedProtocols s = [widen "chat"; widen "superchat"].
Proof.
  edestruct subprotocols_parsed_and_registered
    with (utf16_from_utf8 := widen)
         (trim_whitespace := trim_surrounding_whitespace) (stream := 1%nat)
         (fault := @None HRESULT) (asyncBlock := 100%nat) (h := 7%nat)
         (w := open_world)
    as [_ [[hr [w' [s [H1 [H2 H3]]]]] Hchat]].
  - reflexivity.
  - vm_compute. reflexivity.
  - vm_compute. reflexivity.
  - specialize (Hchat eq_refl eq_refl eq_refl).
    split; [exact Hchat|].
    exists hr, w', s. split; [exact H1|]. split; [exact H2|].
    change (subProtocol _) with "chat, superchat"%string in H3.
    rewrite Hchat in H3. injection H3 as <-. reflexivity.
Defined.

(** C6. Connect passes to [SetRequestHeader], in order and with name
    and value unchanged, every header of the session except those whose
    name is the reserved header "Sec-WebSocket-Protocol"; header names
    are compared as [str_icmp] compares them, without regard to letter
    case, and a header with the reserved name is never passed. *)
Theorem reserved_header_filtered
    (utf16_from_utf8 : string -> wstring)
    (trim_whitespace : wstring -> wstring) (stream : nat)
    (fault : option HRESULT) (asyncBlock : AsyncBlock) (h : nat) (w : world)
    (ws : HC_WEBSOCKET) (task : winrt_websocket_impl)
    (Htrim : trim_whitespace [] = [])
    (Hws : sockets w !! h = Some ws)
    (Himpl : impl ws = Some task) :
  exists hr w' s,
    WebsocketConnectDoWork utf16_from_utf8 trim_whitespace stream fault
      asyncBlock (Some h) w = Some (hr, w')
    /\ transport_of w' h = Some s
    /\ requestHeaders s =
         List.filter (fun header => negb (str_icmp (fst header) protocolHeader))
                     (connectHeaders ws)
    /\ (forall name value,
          In (name, value) (connectHeaders ws) ->
          str_icmp name protocolHeader = false ->
          In (name, value) (requestHeaders s))
    /\ (forall name value,
          In (name, value) (requestHeaders s) ->
          In (name, value) (connectHeaders ws)
          /\ str_icmp name protocolHeader = false)
    /\ (forall value, ~ In (protocolHeader, value) (requestHeaders s)).
Proof.
  destruct (connect_configures_transport utf16_from_utf8 trim_whitespace
              Htrim stream fault asyncBlock h w ws task Hws Himpl)
    as [hr [w' [s [H1 [H2 [H3 _]]]]]].
  exists hr, w', s. split; [exact H1|]. split; [exact H2|].
  split; [exact H3|]. rewrite H3.
  assert (Hin : forall name value,
            In (name, value) (List.filter passes (connectHeaders ws)) <->
            In (name, value) (connectHeaders ws)
            /\ str_icmp name protocolHeader = false).
  { intros name value. rewrite filter_In. unfold passes. simpl.
    rewrite negb_true_iff. reflexivity. }
  split; [|split].
  - intros name value Hmem Hname. apply Hin. auto.
  - intros name value Hmem. apply Hin. exact Hmem.
  - intros value Hmem. apply Hin in Hmem. destruct Hmem as [_ Hname].
    vm_compute in Hname. discriminate.
Qed.

Lemma reserved_header_filtered_witness :
  exists hr w' s,
    WebsocketConnectDoWork widen trim_surrounding_whitespace 1 None 100%nat
      (Some 7%nat) lowercase_header_world = Some (hr, w')
    /\ transport_of w' 7 = Some s
    /\ requestHeaders s = [("Host", "host"); ("X-Token", "t")]%string.
Proof.
  edestruct reserved_header_filtered
    with (utf16_from_utf8 := widen)
         (trim_whitespace := trim_surrounding_whitespace) (stream := 1%nat)
         (fault := @None HRESULT) (asyncBlock := 100%nat) (h := 7%nat)
         (w := lowercase_header_world)
    as [hr [w' [s [H1 [H2 [H3 _]]]]]].
  - reflexivity.
  - vm_compute. reflexivity.
  - vm_compute. reflexivity.
  - exists hr, w', s. split; [exact H1|]. split; [exact H2|].
    rewrite H3. vm_compute. reflexivity.
Defined.

(** ** The send pipeline *)

(** On a session whose queue is empty, every send of a burst finds the
    queue empty again: each record is taken off the queue by the very
    call that appended it and handed to the scheduler, in call order. *)
Lemma burst_dispatches_every_send (h : nat) (msgs : list (string * AsyncBlock)) :
  forall (w : world) (s : http_singleton) (task : winrt_websocket_impl),
  singleton w = Some s ->
  get_impl w h = Some task ->
  m_outgoingMessageQueue task = [] ->
  Forall (fun m => fst m <> EmptyString) msgs ->
  exists w',
    run always_ok always_ok (sends h msgs) w = Some w'
    /\ queue_of w' h = []
    /\ task_queue w' =
         task_queue w
           ++ combine (List.map snd msgs) (seq (next_raw w) (length msgs))
    /\ store_ops w' = store_ops w
    /\ completions w' = completions w.
Proof.
  induction msgs as [|[text b] msgs IH]; intros w s task Hs Htask Hq Hne.
  - exists w. simpl. rewrite app_nil_r. unfold queue_of. rewrite Htask.
    auto.
  - apply Forall_cons in Hne. destruct Hne as [Htext Hne]. simpl in Htext.
    assert (Hws : exists ws, sockets w !! h = Some ws /\ impl ws = Some task).
    { unfold get_impl in Htask.
      destruct (sockets w !! h) as [ws|]; [eauto | discriminate]. }
    destruct Hws as [ws [Hws Himpl]].
    destruct (send_accepted always_ok always_ok w h s ws task text b
                Hs Hws Himpl Htext)
      as [w1 [Hsend [Hs1 [Hst1 [Hc1 [[task1 Htask1] Hshape]]]]]].
    rewrite Hq in Hshape.
    destruct Hshape as [Hq1 [_ [Hraw1 Htq1]]].
    assert (Hq1' : m_outgoingMessageQueue task1 = []).
    { unfold queue_of in Hq1. rewrite Htask1 in Hq1. exact Hq1. }
    destruct (IH w1 _ task1 Hs1 Htask1 Hq1' Hne)
      as [w' [Hrun [Hq' [Htq' [Hst' Hc']]]]].
    exists w'. cbn [sends List.map run step fst snd].
    rewrite Hsend. cbn [option_map snd].
    split; [exact Hrun|]. split; [exact Hq'|].
    split; [|split; congruence].
    rewrite Htq', Htq1, Hraw1.
    rewrite decide_True by (split; reflexivity).
    rewrite <- app_assoc. reflexivity.
Qed.

(** C1, at the failing input. Three sends issued back to back on an open
    session, before any completion: each call finds the queue empty,
    because the record in flight has already been taken off it, so no
    record stays queued and three work items are handed to the scheduler.
    Once they have run, three records await the completion of their store
    operation at once. *)
Theorem burst_submits_every_message :
  exists w1 w2,
    run always_ok always_ok burst open_world = Some w1
    /\ queue_of w1 7 = []
    /\ List.map m_message (dispatched w1) = ["A"; "B"; "C"]%string
    /\ run always_ok always_ok (run_queued 3) w1 = Some w2
    /\ List.map m_message (in_flight w2) = ["A"; "B"; "C"]%string
    /\ completions w2 = [].
Proof.
  do 2 eexists.
  split; [vm_compute; reflexivity|].
  split; [vm_compute; reflexivity|].
  split; [vm_compute; reflexivity|].
  split; [vm_compute; reflexivity|].
  split; vm_compute; reflexivity.
Qed.

(** C2, at the failing input. After two sends issued back to back the
    second record has been taken off the queue although the first has not
    completed; both store operations are then outstanding, and when the
    transport completes the second one first the completions reach the
    callers in the order B, A. *)
Theorem completions_out_of_call_order :
  exists w1 w2,
    run always_ok always_ok two_sends open_world = Some w1
    /\ queue_of w1 7 = []
    /\ List.map m_message (dispatched w1) = ["A"; "B"]%string
    /\ completions w1 = []
    /\ run always_ok always_ok second_completes_first w1 = Some w2
    /\ List.map fst (completions w2) = [101%nat; 100%nat].
Proof.
  do 2 eexists.
  split; [vm_compute; reflexivity|].
  split; [vm_compute; reflexivity|].
  split; [vm_compute; reflexivity|].
  split; [vm_compute; reflexivity|].
  split; vm_compute; reflexivity.
Qed.

(** * Further properties *)

(** ** Frames *)

Lemma get_impl_update_impl_ne (h h' : nat) f (w : world) :
  h <> h' -> get_impl (update_impl h f w) h' = get_impl w h'.
Proof.
  intros Hne. unfold get_impl, update_impl; simpl.
  rewrite lookup_alter_ne by done. reflexivity.
Qed.

Lemma sockets_update_impl_ne (h h' : nat) f (w : world) :
  h <> h' -> sockets (update_impl h f w) !! h' = sockets w !! h'.
Proof.
  intros Hne. unfold update_impl; simpl.
  rewrite lookup_alter_ne by done. reflexivity.
Qed.

Lemma queue_of_sockets (w1 w2 : world) (h : nat) :
  sockets w1 = sockets w2 -> queue_of w1 h = queue_of w2 h.
Proof. intros Heq. unfold queue_of, get_impl. rewrite Heq. reflexivity. Qed.

Lemma queue_of_update_impl_ne (h h' : nat) f (w : world) :
  h <> h' -> queue_of (update_impl h f w) h' = queue_of w h'.
Proof.
  intros Hne. unfold queue_of. rewrite get_impl_update_impl_ne by done.
  reflexivity.
Qed.

Lemma queue_of_update_impl (h : nat) f (w : world) :
  (forall t, m_outgoingMessageQueue (f t) = m_outgoingMessageQueue t) ->
  forall h', queue_of (update_impl h f w) h' = queue_of w h'.
Proof.
  intros Hf h'. destruct (decide (h = h')) as [<-|Hne].
  - unfold queue_of. rewrite get_impl_update_impl.
    destruct (get_impl w h); simpl; [apply Hf | reflexivity].
  - apply queue_of_update_impl_ne. exact Hne.
Qed.

(** The send loop changes no session but the one it is run for. *)
Lemma send_loop_frame
    (BeginAsync ScheduleAsync : AsyncBlock -> HRESULT)
    (h : nat) (w w' : world) :
  MessageWebSocketSendMessage BeginAsync ScheduleAsync h w = Some w' ->
  singleton w' = singleton w
  /\ store_ops w' = store_ops w
  /\ completions w' = completions w
  /\ connect_ops w' = connect_ops w
  /\ forall h', h <> h' -> sockets w' !! h' = sockets w !! h'.
Proof.
  unfold MessageWebSocketSendMessage. intros Hrun.
  destruct (get_impl w h) as [task|]; [|discriminate].
  destruct (m_outgoingMessageQueue task) as [|msg rest].
  - injection Hrun as <-. auto.
  - repeat case_decide; injection Hrun as <-; simpl;
      repeat split; intros h' Hne; rewrite lookup_alter_ne by done;
      reflexivity.
Qed.

Lemma queue_of_lookup (w1 w2 : world) (h : nat) :
  sockets w1 !! h = sockets w2 !! h -> queue_of w1 h = queue_of w2 h.
Proof. intros Heq. unfold queue_of, get_impl. rewrite Heq. reflexivity. Qed.

Lemma send_frame
    (BeginAsync ScheduleAsync : AsyncBlock -> HRESULT)
    (websocket : hc_websocket_handle_t) (message : option string)
    (asyncBlock : AsyncBlock) (w w' : world) (hr : HRESULT) :
  Internal_HCWebSocketSendMessageAsync BeginAsync ScheduleAsync
    websocket message asyncBlock w = Some (hr, w') ->
  (forall h', websocket <> Some h' -> sockets w' !! h' = sockets w !! h')
  /\ store_ops w' = store_ops w
  /\ completions w' = completions w
  /\ connect_ops w' = connect_ops w.
Proof.
  intros Hsend.
  unfold Internal_HCWebSocketSendMessageAsync in Hsend.
  destruct message as [text|]; [|injection Hsend as <- <-; auto].
  destruct (singleton w) as [s|]; [|injection Hsend as <- <-; auto].
  destruct websocket as [h|]; [|discriminate].
  destruct (deref w (Some h)) as [ws|]; [|discriminate].
  destruct (String.length text =? 0)%nat; [injection Hsend as <- <-; auto|].
  destruct (impl ws) as [task|]; [|discriminate].
  destruct (negb _).
  - destruct (MessageWebSocketSendMessage _ _ _ _) as [w3|] eqn:Hloop;
      [|discriminate].
    injection Hsend as <- <-.
    destruct (send_loop_frame _ _ _ _ _ Hloop) as [_ [H2 [H3 [H4 H5]]]].
    split; [|auto].
    intros h' Hne. rewrite H5 by congruence.
    rewrite sockets_update_impl_ne by congruence. reflexivity.
  - injection Hsend as <- <-. split; [|auto].
    intros h' Hne. rewrite sockets_update_impl_ne by congruence. reflexivity.
Qed.

(** X1. Whatever its outcome, a SendMessage call on one session leaves
    every other session of the process as it was, and neither completes
    nor withdraws any operation that is under way. *)
Theorem send_leaves_other_sessions
    (BeginAsync ScheduleAsync : AsyncBlock -> HRESULT)
    (websocket : hc_websocket_handle_t) (message : option string)
    (asyncBlock : AsyncBlock) (w w' : world) (hr : HRESULT)
    (Hsend : Internal_HCWebSocketSendMessageAsync BeginAsync ScheduleAsync
               websocket message asyncBlock w = Some (hr, w')) :
  (forall h', websocket <> Some h' -> sockets w' !! h' = sockets w !! h')
  /\ store_ops w' = store_ops w
  /\ completions w' = completions w
  /\ connect_ops w' = connect_ops w.
Proof. exact (send_frame _ _ _ _ _ _ _ _ Hsend). Qed.

Lemma send_leaves_other_sessions_witness :
  exists w',
    Internal_HCWebSocketSendMessageAsync always_ok always_ok
      (Some 7%nat) (Some "x"%string) 100%nat two_sessions = Some (S_OK, w')
    /\ sockets w' !! 8%nat = sockets two_sessions !! 8%nat
    /\ completions w' = [].
Proof.
  eexists. split; [vm_compute; reflexivity|].
  edestruct send_leaves_other_sessions
    with (BeginAsync := always_ok) (ScheduleAsync := always_ok)
         (websocket := Some 7%nat) (message := Some "x"%string)
         (asyncBlock := 100%nat) (w := two_sessions)
    as [H1 [_ [H3 _]]]; [vm_compute; reflexivity|].
  split; [apply H1; discriminate | exact H3].
Defined.

(** ** The queue never holds a record between two events *)

Lemma send_loop_idle
    (BeginAsync ScheduleAsync : AsyncBlock -> HRESULT)
    (h : nat) (w w' : world) :
  idle w ->
  MessageWebSocketSendMessage BeginAsync ScheduleAsync h w = Some w' ->
  w' = w.
Proof.
  intros Hidle Hrun. unfold MessageWebSocketSendMessage in Hrun.
  specialize (Hidle h). unfold queue_of in Hidle.
  destruct (get_impl w h) as [task|]; [|discriminate].
  rewrite Hidle in Hrun. congruence.
Qed.

Lemma send_idle
    (BeginAsync ScheduleAsync : AsyncBlock -> HRESULT)
    (websocket : hc_websocket_handle_t) (message : option string)
    (asyncBlock : AsyncBlock) (w w' : world) (hr : HRESULT) :
  idle w ->
  Internal_HCWebSocketSendMessageAsync BeginAsync ScheduleAsync
    websocket message asyncBlock w = Some (hr, w') ->
  idle w'.
Proof.
  intros Hidle Hsend h'.
  destruct (decide (websocket = Some h')) as [->|Hne].
  - pose proof Hsend as Hsend'.
    unfold Internal_HCWebSocketSendMessageAsync in Hsend.
    destruct message as [text|];
      [|injection Hsend as <- <-; apply Hidle].
    destruct (singleton w) as [s|] eqn:Hs;
      [|injection Hsend as <- <-; apply Hidle].
    simpl in Hsend.
    destruct (sockets w !! h') as [ws|] eqn:Hws; [|discriminate].
    destruct (String.length text =? 0)%nat eqn:Hlen;
      [injection Hsend as <- <-; apply Hidle|].
    destruct (impl ws) as [task|] eqn:Himpl; [|discriminate].
    assert (Htext : text <> EmptyString)
      by (intros ->; discriminate).
    destruct (send_accepted BeginAsync ScheduleAsync w h' s ws task text
                asyncBlock Hs Hws Himpl Htext)
      as [w'' [Hsend'' [_ [_ [_ [_ Hshape]]]]]].
    rewrite Hsend'' in Hsend'. injection Hsend' as _ ->.
    assert (Hq : m_outgoingMessageQueue task = []).
    { specialize (Hidle h'). unfold queue_of, get_impl in Hidle.
      rewrite Hws, Himpl in Hidle. exact Hidle. }
    rewrite Hq in Hshape. apply Hshape.
  - destruct (send_frame _ _ _ _ _ _ _ _ Hsend) as [Hframe _].
    rewrite (queue_of_lookup w' w h' (Hframe h' Hne)). apply Hidle.
Qed.

Lemma step_idle
    (BeginAsync ScheduleAsync : AsyncBlock -> HRESULT)
    (e : event) (w w' : world) :
  idle w -> step BeginAsync ScheduleAsync e w = Some w' -> idle w'.
Proof.
  intros Hidle Hstep. destruct e as [websocket message b|i fault|i status results];
    simpl in Hstep.
  - destruct (Internal_HCWebSocketSendMessageAsync _ _ _ _ _ _)
      as [[hr w1]|] eqn:Hsend; [|discriminate].
    injection Hstep as <-. eapply send_idle; eassumption.
  - destruct (task_queue w !! i) as [[b raw]|]; [|discriminate].
    unfold WebsockSendMessageDoWork in Hstep. simpl in Hstep.
    destruct (ptr_cache w !! raw) as [ctx|];
      [|injection Hstep as <-; intros k; apply Hidle].
    destruct (get_impl _ _) as [task|]; [|discriminate].
    destruct fault; injection Hstep as <-; intros k;
      set (f := set_writer _);
      (transitivity (queue_of (update_impl (websocketTask ctx) f w) k);
         [reflexivity|]);
      rewrite (queue_of_update_impl _ f) by (intros; reflexivity);
      apply Hidle.
  - destruct (store_ops w !! i) as [[b raw]|]; [|discriminate].
    unfold store_completed in Hstep. simpl in Hstep.
    destruct (ptr_cache w !! raw) as [ctx|]; [|discriminate].
    apply send_loop_idle in Hstep.
    + subst w'. intros k. apply Hidle.
    + intros k. apply Hidle.
Qed.

Lemma run_idle
    (BeginAsync ScheduleAsync : AsyncBlock -> HRESULT)
    (es : list event) (w w' : world) :
  idle w -> run BeginAsync ScheduleAsync es w = Some w' -> idle w'.
Proof.
  revert w.
  induction es as [|e es IH]; intros w Hidle Hrun; simpl in Hrun.
  - injection Hrun as <-. exact Hidle.
  - destruct (step BeginAsync ScheduleAsync e w) as [w1|] eqn:Hstep;
      [|discriminate].
    apply (IH w1); [|exact Hrun].
    eapply step_idle; eassumption.
Qed.

Lemma idle_open_world : idle open_world.
Proof.
  intros h. unfold queue_of, get_impl, open_world, world_of. simpl.
  destruct (decide (h = 7%nat)) as [->|Hne].
  - reflexivity.
  - rewrite lookup_singleton_ne by done. reflexivity.
Qed.

Lemma tracked_open_world : tracked open_world.
Proof. intros b raw Hin. simpl in Hin. apply elem_of_nil in Hin. contradiction. Qed.

(** ** A scheduler that refuses *)

(** X4. When the scheduler refuses the work item of a message
    ([BeginAsync] or [ScheduleAsync] does not answer [S_OK]), SendMessage
    on a session with an empty queue still answers [S_OK]; the record has
    left the queue, no work item exists for it, and nothing is in flight
    or completed for it: it stays in the context cache only. *)
Theorem refused_work_item_is_dropped
    (BeginAsync ScheduleAsync : AsyncBlock -> HRESULT)
    (w : world) (h : nat) (s : http_singleton) (ws : HC_WEBSOCKET)
    (task : winrt_websocket_impl) (text : string) (asyncBlock : AsyncBlock)
    (Hs : singleton w = Some s)
    (Hws : sockets w !! h = Some ws)
    (Himpl : impl ws = Some task)
    (Hqueue : m_outgoingMessageQueue task = [])
    (Htext : text <> EmptyString)
    (Hrefused : BeginAsync asyncBlock <> S_OK
                \/ ScheduleAsync asyncBlock <> S_OK) :
  exists w',
    Internal_HCWebSocketSendMessageAsync BeginAsync ScheduleAsync
      (Some h) (Some text) asyncBlock w = Some (S_OK, w')
    /\ queue_of w' h = []
    /\ task_queue w' = task_queue w
    /\ store_ops w' = store_ops w
    /\ completions w' = completions w
    /\ option_map (fun c => m_message (nextMessage c))
         (ptr_cache w' !! next_raw w) = Some text.
Proof.
  destruct (send_accepted BeginAsync ScheduleAsync w h s ws task text
              asyncBlock Hs Hws Himpl Htext)
    as [w' [Hsend [_ [Hst [Hc [_ Hshape]]]]]].
  rewrite Hqueue in Hshape. destruct Hshape as [Hq [Hcache [_ Htq]]].
  exists w'. split; [exact Hsend|]. split; [exact Hq|].
  split; [|split; [exact Hst|split; [exact Hc|]]].
  - rewrite Htq. apply decide_False. tauto.
  - rewrite Hcache, lookup_insert_eq. reflexivity.
Qed.

Lemma refused_work_item_is_dropped_witness :
  exists w',
    Internal_HCWebSocketSendMessageAsync (fun _ => E_FAIL) always_ok
      (Some 7%nat) (Some "A"%string) 100%nat open_world = Some (S_OK, w')
    /\ queue_of w' 7 = []
    /\ task_queue w' = [].
Proof.
  edestruct refused_work_item_is_dropped
    with (BeginAsync := fun _ : AsyncBlock => E_FAIL)
         (ScheduleAsync := always_ok) (w := open_world) (h := 7%nat)
         (text := "A"%string) (asyncBlock := 100%nat)
    as [w' [H1 [H2 [H3 _]]]].
  - vm_compute. reflexivity.
  - vm_compute. reflexivity.
  - vm_compute. reflexivity.
  - vm_compute. reflexivity.
  - discriminate.
  - left. vm_compute. discriminate.
  - exists w'. split; [exact H1|]. split; [exact H2 | exact H3].
Defined.

(** ** From the store completion to the result *)

Lemma to_int32_small (n : Z) : 0 <= n < 2 ^ 31 -> to_int32 n = n.
Proof.
  intros Hn. unfold to_int32. rewrite Z.mod_small by lia. lia.
Qed.

Lemma to_int32_large (n : Z) :
  2 ^ 31 <= n < 2 ^ 32 -> to_int32 n = n - 2 ^ 32.
Proof.
  intros Hn. unfold to_int32.
  replace (n + 2 ^ 31) with (n - 2 ^ 31 + 1 * 2 ^ 32) by lia.
  rewrite Z.mod_add by lia. rewrite Z.mod_small by lia. lia.
Qed.

(** The send loop keeps the contexts already cached and the handle of
    every implementation object. *)
Lemma send_loop_keeps
    (BeginAsync ScheduleAsync : AsyncBlock -> HRESULT)
    (h : nat) (w w' : world) :
  MessageWebSocketSendMessage BeginAsync ScheduleAsync h w = Some w' ->
  (forall raw, raw <> next_raw w -> ptr_cache w' !! raw = ptr_cache w !! raw)
  /\ (forall k t, get_impl w k = Some t ->
      exists t', get_impl w' k = Some t'
                 /\ m_websocketHandle t' = m_websocketHandle t).
Proof.
  unfold MessageWebSocketSendMessage. intros Hrun.
  destruct (get_impl w h) as [task|]; [|discriminate].
  destruct (m_outgoingMessageQueue task) as [|msg rest].
  - injection Hrun as <-. split; [reflexivity|]. intros k t Ht. eauto.
  - assert (Hkeep : forall k t, get_impl w k = Some t ->
              exists t', get_impl (update_impl h (set_queue rest) w) k = Some t'
                         /\ m_websocketHandle t' = m_websocketHandle t).
    { intros k t Ht. destruct (decide (h = k)) as [<-|Hne].
      - rewrite get_impl_update_impl, Ht. simpl. eauto.
      - rewrite get_impl_update_impl_ne by done. eauto. }
    repeat case_decide; injection Hrun as <-; simpl;
      (split; [intros raw Hraw; apply lookup_insert_ne; congruence
              |exact Hkeep]).
Qed.

(** X5. When the completion handler of a store operation has run, the
    code it passed to [CompleteAsync] is the platform code that the
    result retrieval for the same context reports, with the generic
    status derived from it.  A successful store of fewer than 2^31 bytes
    is a success whose platform code is the byte count; a count of 2^31
    or more is reported as a failure. *)
Theorem store_completion_result
    (BeginAsync ScheduleAsync : AsyncBlock -> HRESULT)
    (sizeof bufferSize : Z) (asyncBlock : AsyncBlock) (raw : nat)
    (status : AsyncStatus) (results : outcome Z) (w : world)
    (ctx : SendMessageCallbackContent) (task : winrt_websocket_impl)
    (Hctx : ptr_cache w !! raw = Some ctx)
    (Hfresh : (raw < next_raw w)%nat)
    (Htask : get_impl w (websocketTask ctx) = Some task)
    (Hhandle : m_websocketHandle task <> None)
    (Hsize : sizeof <= bufferSize) :
  exists w',
    store_completed BeginAsync ScheduleAsync asyncBlock raw status results w
      = Some w'
    /\ completions w' = completions w ++ [(asyncBlock, store_code results)]
    /\ WebsockSendMessageGetResult sizeof (Some raw) bufferSize w' =
         Some (S_OK,
               Some {| websocket := m_websocketHandle task;
                       errorCode := generic_status (store_code results);
                       platformErrorCode := store_code results |})
    /\ (forall n, results = Normal n -> 0 <= n < 2 ^ 31 ->
        store_code results = n /\ generic_status (store_code results) = S_OK)
    /\ (forall n, results = Normal n -> 2 ^ 31 <= n < 2 ^ 32 ->
        generic_status (store_code results) = E_FAIL).
Proof.
  unfold store_completed. rewrite Hctx.
  fold (store_code results).
  set (ctx' := {| nextMessage := _; websocketTask := websocketTask ctx |}).
  set (w2 := CompleteAsync asyncBlock (store_code results) _).
  assert (Hdef : exists w',
            MessageWebSocketSendMessage BeginAsync ScheduleAsync
              (websocketTask ctx) w2 = Some w').
  { unfold MessageWebSocketSendMessage.
    change (get_impl w2 (websocketTask ctx))
      with (get_impl w (websocketTask ctx)).
    rewrite Htask. repeat case_match; eauto. }
  destruct Hdef as [w' Hloop]. exists w'. split; [exact Hloop|].
  destruct (send_loop_frame _ _ _ _ _ Hloop) as [_ [_ [Hc _]]].
  destruct (send_loop_keeps _ _ _ _ _ Hloop) as [Hcache Hkeep].
  split; [rewrite Hc; reflexivity|].
  split; [|split].
  - unfold WebsockSendMessageGetResult.
    destruct (Z.ltb_spec bufferSize sizeof) as [Hlt|_]; [lia|].
    rewrite Hcache by (change (next_raw w2) with (next_raw w); lia).
    change (ptr_cache w2 !! raw)
      with (<[raw := ctx']> (ptr_cache w) !! raw).
    rewrite lookup_insert_eq.
    destruct (Hkeep (websocketTask ctx) task Htask) as [t' [Ht' Hh']].
    change (websocketTask ctx') with (websocketTask ctx).
    rewrite Ht', Hh'.
    destruct (m_websocketHandle task); [reflexivity | congruence].
  - intros n -> Hn. simpl. rewrite to_int32_small by exact Hn.
    split; [reflexivity|]. unfold generic_status, FAILED.
    destruct (Z.ltb_spec n 0); [lia | reflexivity].
  - intros n -> Hn. simpl. rewrite to_int32_large by exact Hn.
    unfold generic_status, FAILED.
    destruct (Z.ltb_spec (n - 2 ^ 32) 0); [reflexivity | lia].
Qed.

Lemma store_completion_result_witness :
  exists w',
    store_completed always_ok always_ok 100%nat 0%nat Completed (Normal 1)
      one_in_flight_one_queued = Some w'
    /\ completions w' = [(100%nat, 1)]
    /\ WebsockSendMessageGetResult 24 (Some 0%nat) 24 w' =
         Some (S_OK, Some {| websocket := Some 7%nat; errorCode := S_OK;
                             platformErrorCode := 1 |})
    /\ List.map m_message (dispatched w') = ["B"%string].
Proof.
  edestruct store_completion_result
    with (BeginAsync := always_ok) (ScheduleAsync := always_ok)
         (sizeof := 24) (bufferSize := 24) (asyncBlock := 100%nat)
         (raw := 0%nat) (status := Completed) (results := Normal 1)
         (w := one_in_flight_one_queued)
    as [w' [H1 [H2 [H3 _]]]].
  - vm_compute. reflexivity.
  - vm_compute. lia.
  - vm_compute. reflexivity.
  - vm_compute. discriminate.
  - lia.
  - exists w'. split; [exact H1|]. split; [exact H2|]. split; [exact H3|].
    vm_compute in H1. injection H1 as <-. vm_compute. reflexivity.
Defined.

(** ** Disconnect and the pipeline *)

(** X6. A successful Disconnect changes nothing but the close request of
    the session's transport: the queue, the work items, the store
    operations under way, the completions and the identifier counter are
    as before, and so is every other session.  The transport object
    stays in place, so a further Disconnect succeeds again, and a
    SendMessage after it is accepted with [S_OK] like any other. *)
Theorem disconnect_keeps_pipeline
    (BeginAsync ScheduleAsync : AsyncBlock -> HRESULT)
    (w : world) (h : nat) (ws : HC_WEBSOCKET) (s : MessageWebSocket)
    (closeStatus : Z)
    (Hws : sockets w !! h = Some ws)
    (Htransport : session_transport ws = Some s) :
  exists w',
    Internal_HCWebSocketDisconnect (Some h) closeStatus w = Some (S_OK, w')
    /\ queue_of w' h = queue_of w h
    /\ task_queue w' = task_queue w
    /\ store_ops w' = store_ops w
    /\ completions w' = completions w
    /\ ptr_cache w' = ptr_cache w
    /\ singleton w' = singleton w
    /\ (forall h', h <> h' -> sockets w' !! h' = sockets w !! h')
    /\ (forall closeStatus',
        option_map fst (Internal_HCWebSocketDisconnect (Some h) closeStatus' w')
          = Some S_OK)
    /\ (forall text asyncBlock,
        text <> EmptyString -> is_Some (singleton w) ->
        option_map fst
          (Internal_HCWebSocketSendMessageAsync BeginAsync ScheduleAsync
             (Some h) (Some text) asyncBlock w') = Some S_OK).
Proof.
  unfold session_transport in Htransport.
  destruct (impl ws) as [task|] eqn:Himpl; [|discriminate].
  unfold Internal_HCWebSocketDisconnect at 1. rewrite Hws, Himpl, Htransport.
  set (f := set_socket _).
  eexists. split; [reflexivity|].
  assert (Hws' : sockets (update_impl h f w) !! h
                 = Some (set_impl (Some (f task)) ws)).
  { unfold update_impl. simpl. rewrite lookup_alter_eq, Hws. simpl.
    rewrite Himpl. reflexivity. }
  split; [apply queue_of_update_impl; reflexivity|].
  do 5 (split; [reflexivity|]).
  split; [intros h' Hne; apply sockets_update_impl_ne; exact Hne|].
  split.
  - intros closeStatus'. unfold Internal_HCWebSocketDisconnect.
    rewrite Hws'. reflexivity.
  - intros text asyncBlock Htext [sg Hsg].
    destruct (send_accepted BeginAsync ScheduleAsync (update_impl h f w) h sg
                (set_impl (Some (f task)) ws) (f task) text asyncBlock
                Hsg Hws' eq_refl Htext)
      as [w'' [Hsend _]].
    rewrite Hsend. reflexivity.
Qed.

Lemma disconnect_keeps_pipeline_witness :
  exists w',
    Internal_HCWebSocketDisconnect (Some 7%nat) 1000 one_in_flight_one_queued
      = Some (S_OK, w')
    /\ List.map m_message (queue_of w' 7) = ["B"%string]
    /\ store_ops w' = [(100%nat, 0%nat)]
    /\ option_map fst
         (Internal_HCWebSocketSendMessageAsync always_ok always_ok
            (Some 7%nat) (Some "C"%string) 102%nat w') = Some S_OK.
Proof.
  edestruct disconnect_keeps_pipeline
    with (BeginAsync := always_ok) (ScheduleAsync := always_ok)
         (w := one_in_flight_one_queued) (h := 7%nat) (closeStatus := 1000)
    as [w' [H1 [H2 [_ [H4 [_ [_ [_ [_ [_ H10]]]]]]]]]].
  - vm_compute. reflexivity.
  - vm_compute. reflexivity.
  - exists w'. split; [exact H1|].
    split; [rewrite H2; vm_compute; reflexivity|].
    split; [rewrite H4; vm_compute; reflexivity|].
    apply H10; [discriminate | vm_compute; eauto].
Defined.

(** ** Comparing header names *)

Lemma tolower_idempotent (c : ascii) : tolower (tolower c) = tolower c.
Proof.
  destruct c as [[] [] [] [] [] [] [] []]; vm_compute; reflexivity.
Qed.

Lemma lowercase_idempotent (s : string) : lowercase (lowercase s) = lowercase s.
Proof.
  induction s as [|c s IH]; simpl; [reflexivity|].
  rewrite tolower_idempotent, IH. reflexivity.
Qed.

Lemma lowercase_length (s : string) :
  String.length (lowercase s) = String.length s.
Proof. induction s as [|c s IH]; simpl; congruence. Qed.

Lemma str_icmp_true (s t : string) :
  str_icmp s t = true <-> lowercase s = lowercase t.
Proof. unfold str_icmp. apply String.eqb_eq. Qed.

(** X7. [str_icmp] is an equivalence on strings that ignores the case of
    ASCII letters: it is reflexive, symmetric and transitive, it holds
    between a string and its lower-cased form, and it holds only between
    strings of the same length.  So whether Connect passes a header on
    depends on the header's name only up to letter case. *)
Theorem str_icmp_equivalence :
  (forall s, str_icmp s s = true)
  /\ (forall s t, str_icmp s t = str_icmp t s)
  /\ (forall s t u,
      str_icmp s t = true -> str_icmp t u = true -> str_icmp s u = true)
  /\ (forall s, str_icmp (lowercase s) s = true)
  /\ (forall s t, str_icmp s t = true -> String.length s = String.length t)
  /\ (forall name name' value value',
      str_icmp name name' = true ->
      passes (name, value) = passes (name', value')).
Proof.
  split; [|split; [|split; [|split; [|split]]]].
  - intros s. apply str_icmp_true. reflexivity.
  - intros s t. unfold str_icmp. apply String.eqb_sym.
  - intros s t u Hst Htu. apply str_icmp_true.
    apply str_icmp_true in Hst. apply str_icmp_true in Htu. congruence.
  - intros s. apply str_icmp_true. apply lowercase_idempotent.
  - intros s t Hst. apply str_icmp_true in Hst.
    rewrite <- (lowercase_length s), <- (lowercase_length t), Hst.
    reflexivity.
  - intros name name' value value' Hn. apply str_icmp_true in Hn.
    unfold passes, str_icmp. simpl. rewrite Hn. reflexivity.
Qed.

Lemma str_icmp_equivalence_witness :
  str_icmp "SEC-WEBSOCKET-PROTOCOL" "sec-websocket-protocol" = true
  /\ passes ("SEC-websocket-PROTOCOL", "chat")%string = false.
Proof.
  destruct str_icmp_equivalence as [_ [_ [Htrans [_ [_ Hpass]]]]].
  split.
  - apply (Htrans _ protocolHeader); vm_compute; reflexivity.
  - rewrite (Hpass _ protocolHeader _ "chat"%string);
      vm_compute; reflexivity.
Defined.

(** ** More on the sub-protocol list *)

Lemma split_on_fields (delim : wchar_t) (s : wstring) :
  Forall (fun field => ~ In delim field) (split_on delim s)
  /\ length (split_on delim s)
     = S (length (List.filter (N.eqb delim) s)).
Proof.
  induction s as [|c s [IHf IHl]]; simpl.
  - split; [repeat constructor; auto | reflexivity].
  - rewrite (N.eqb_sym delim c).
    destruct (N.eqb_spec c delim) as [->|Hne].
    + split; [constructor; auto | simpl; lia].
    + destruct (split_on delim s) as [|t ts]; [simpl in IHl; lia|].
      apply Forall_cons in IHf. destruct IHf as [Ht Hts].
      split; [|simpl in *; lia].
      constructor; [|exact Hts].
      simpl. intros [Heq|Hin]; [congruence | contradiction].
Qed.

Lemma split_on_app (delim : wchar_t) (a b : wstring) :
  split_on delim (a ++ delim :: b) = split_on delim a ++ split_on delim b.
Proof.
  induction a as [|c a IH]; simpl.
  - rewrite N.eqb_refl. reflexivity.
  - destruct (c =? delim)%N; [rewrite IH; reflexivity|].
    rewrite IH.
    destruct (split_on delim a) as [|t ts] eqn:Ha; [|reflexivity].
    pose proof (split_on_fields delim a) as [_ Hlen].
    rewrite Ha in Hlen. discriminate.
Qed.

(** X8. Whatever [parse_subprotocols] returns contains no empty entry;
    every entry is the trimmed form of a stretch of the text between two
    commas, and there are at most as many entries as commas plus one. *)
Theorem parsed_protocols_are_trimmed_fields
    (utf16_from_utf8 : string -> wstring)
    (trim_whitespace : wstring -> wstring) (subProtocol : string)
    (Htrim : trim_whitespace [] = []) :
  exists protocols,
    parse_subprotocols utf16_from_utf8 trim_whitespace subProtocol
      = Some protocols
    /\ Forall (fun p => p <> []) protocols
    /\ (forall p, In p protocols ->
        exists field,
          p = trim_whitespace field /\ ~ In comma field
          /\ In field (split_on comma (c_str (utf16_from_utf8 subProtocol))))
    /\ (length protocols
        <= S (length (List.filter (N.eqb comma)
                        (c_str (utf16_from_utf8 subProtocol)))))%nat.
Proof.
  eexists. split; [apply parse_subprotocols_spec; exact Htrim|].
  unfold spec_subprotocols.
  set (text := c_str (utf16_from_utf8 subProtocol)).
  destruct (split_on_fields comma text) as [Hfields Hlen].
  split; [|split].
  - apply List.Forall_forall. intros p Hp.
    apply filter_In in Hp. destruct Hp as [_ Hne].
    destruct p; [discriminate | congruence].
  - intros p Hp. apply filter_In in Hp. destruct Hp as [Hp _].
    apply in_map_iff in Hp. destruct Hp as [field [<- Hfield]].
    exists field. split; [reflexivity|]. split; [|exact Hfield].
    rewrite List.Forall_forall in Hfields. apply Hfields. exact Hfield.
  - rewrite <- Hlen.
    etransitivity; [apply filter_length_le|].
    rewrite length_map. reflexivity.
Qed.

Lemma parsed_protocols_are_trimmed_fields_witness :
  exists protocols,
    parse_subprotocols widen trim_surrounding_whitespace " a ,, b ,"
      = Some protocols
    /\ Forall (fun p => p <> []) protocols
    /\ (length protocols <= 4)%nat.
Proof.
  destruct (parsed_protocols_are_trimmed_fields widen
              trim_surrounding_whitespace " a ,, b ,"%string eq_refl)
    as [protocols [H1 [H2 [_ H4]]]].
  exists protocols. split; [exact H1|]. split; [exact H2|].
  exact H4.
Defined.

(** X9. The sub-protocol list of a text made of two parts joined by a
    comma is the list of the first part followed by the list of the
    second.  So a comma at the start or at the end of the text, or two
    commas in a row, add nothing. *)
Theorem parse_subprotocols_composes
    (utf16_from_utf8 : string -> wstring)
    (trim_whitespace : wstring -> wstring)
    (left right joined : string)
    (Htrim : trim_whitespace [] = [])
    (Hjoined : c_str (utf16_from_utf8 joined) =
               c_str (utf16_from_utf8 left)
                 ++ comma :: c_str (utf16_from_utf8 right)) :
  exists pl pr,
    parse_subprotocols utf16_from_utf8 trim_whitespace left = Some pl
    /\ parse_subprotocols utf16_from_utf8 trim_whitespace right = Some pr
    /\ parse_subprotocols utf16_from_utf8 trim_whitespace joined
       = Some (pl ++ pr)
    /\ (c_str (utf16_from_utf8 right) = [] ->
        parse_subprotocols utf16_from_utf8 trim_whitespace joined = Some pl)
    /\ (c_str (utf16_from_utf8 left) = [] ->
        parse_subprotocols utf16_from_utf8 trim_whitespace joined = Some pr).
Proof.
  do 2 eexists.
  split; [apply parse_subprotocols_spec; exact Htrim|].
  split; [apply parse_subprotocols_spec; exact Htrim|].
  assert (Hall : parse_subprotocols utf16_from_utf8 trim_whitespace joined =
                 Some (spec_subprotocols trim_whitespace
                         (c_str (utf16_from_utf8 left))
                       ++ spec_subprotocols trim_whitespace
                            (c_str (utf16_from_utf8 right)))).
  { rewrite (parse_subprotocols_spec _ _ Htrim), Hjoined.
    unfold spec_subprotocols.
    rewrite split_on_app, List.map_app, List.filter_app. reflexivity. }
  split; [exact Hall|]. split.
  - intros Hr. rewrite Hall, Hr. unfold spec_subprotocols at 2. simpl.
    rewrite Htrim. simpl. rewrite app_nil_r. reflexivity.
  - intros Hl. rewrite Hall, Hl. unfold spec_subprotocols at 1. simpl.
    rewrite Htrim. reflexivity.
Qed.

Lemma parse_subprotocols_composes_witness :
  parse_subprotocols widen trim_surrounding_whitespace "chat, superchat,"
    = Some ([widen "chat"; widen "superchat"] ++ [])
  /\ parse_subprotocols widen trim_surrounding_whitespace "chat, superchat,"
     = parse_subprotocols widen trim_surrounding_whitespace "chat, superchat".
Proof.
  destruct (parse_subprotocols_composes widen trim_surrounding_whitespace
              "chat, superchat" "" "chat, superchat," eq_refl eq_refl)
    as [pl [pr [Hl [Hr [Hj [Hend _]]]]]].
  vm_compute in Hl. injection Hl as <-.
  vm_compute in Hr. injection Hr as <-.
  split; [exact Hj|].
  rewrite (Hend eq_refl). vm_compute. reflexivity.
Defined.

(** ** More on connecting *)

Lemma fold_left_keeps {A B : Type} (f : A -> B -> A) (P : A -> Prop) :
  (forall a b, P a -> P (f a b)) ->
  forall l a, P a -> P (fold_left f l a).
Proof.
  intros Hf l. induction l as [|b l IH]; intros a Ha; simpl; auto.
Qed.

Lemma configured_transport (ws : HC_WEBSOCKET) (protocols : list wstring)
    (stream : nat) :
  fold_left (fun s value => Append value s) protocols
            (apply_headers ws (new_MessageWebSocket stream))
    = configured ws protocols stream.
Proof.
  set (s1 := apply_headers ws (new_MessageWebSocket stream)).
  set (s2 := fold_left _ protocols s1).
  destruct (fold_Append protocols s1) as [Hp Hh].
  destruct (apply_headers_log ws (new_MessageWebSocket stream)) as [Hh1 Hp1].
  fold s1 in Hh1, Hp1. fold s2 in Hp, Hh.
  assert (Hrest1 : outputStream s1 = stream /\ closeRequest s1 = None).
  { subst s1. unfold apply_headers.
    apply (fold_left_keeps (set_header_at ws)
             (fun s => outputStream s = stream /\ closeRequest s = None));
      [|split; reflexivity].
    intros a i Ha. unfold set_header_at.
    destruct (HCWebSocketGetHeaderAtIndex ws i) as [[name|] [value|]];
      try exact Ha.
    destruct (negb _); exact Ha. }
  assert (Hrest2 : outputStream s2 = stream /\ closeRequest s2 = None).
  { subst s2.
    apply (fold_left_keeps (fun s value => Append value s)
             (fun s => outputStream s = stream /\ closeRequest s = None));
      [|exact Hrest1].
    intros a v Ha. exact Ha. }
  destruct Hrest2 as [Hs Hc].
  rewrite Hh1 in Hh. rewrite Hp1 in Hp. simpl in Hh, Hp.
  unfold configured. destruct s2; simpl in *; congruence.
Qed.

Lemma lookup_update_impl (h : nat) f (w : world) (ws : HC_WEBSOCKET) :
  sockets w !! h = Some ws ->
  sockets (update_impl h f w) !! h
    = Some (set_impl (option_map f (impl ws)) ws).
Proof.
  intros Hws. unfold update_impl. simpl.
  rewrite lookup_alter_eq, Hws. reflexivity.
Qed.

(** What [WebsocketConnectDoWork] does, in one equation. *)
Lemma connect_work_shape
    (utf16_from_utf8 : string -> wstring)
    (trim_whitespace : wstring -> wstring)
    (Htrim : trim_whitespace [] = [])
    (stream : nat) (fault : option HRESULT) (asyncBlock : AsyncBlock)
    (h : nat) (w : world) (ws : HC_WEBSOCKET) (task : winrt_websocket_impl) :
  sockets w !! h = Some ws -> impl ws = Some task ->
  let s := configured ws
             (spec_subprotocols trim_whitespace
                (c_str (utf16_from_utf8 (subProtocol ws)))) stream in
  let w1 := update_impl h
              (fun t => set_context (Some h) (set_socket (Some s) t)) w in
  WebsocketConnectDoWork utf16_from_utf8 trim_whitespace stream fault
    asyncBlock (Some h) w
  = Some (match fault with
          | Some code =>
            (code, w1)
          | None =>
            (E_PENDING,
             set_connect_ops (connect_ops w ++ [(asyncBlock, h)]) w1)
          end).
Proof.
  intros Hws Himpl s w1. unfold WebsocketConnectDoWork. simpl.
  rewrite Hws, Himpl, (parse_subprotocols_spec _ _ Htrim).
  rewrite configured_transport. fold s. fold w1.
  destruct fault; reflexivity.
Qed.

(** X10. [WebsocketConnectDoWork] answers [E_PENDING] and registers one
    connect operation when [ConnectAsync] does not raise, and answers
    the code of the exception, registering nothing, when it does.
    Either way the session has a fresh transport holding the session's
    headers that pass and its parsed sub-protocols, with no close
    request, and events are attributed to the session; the session's
    queue, writer and stored connect outcome, every other session and
    every send operation under way are untouched. *)
Theorem connect_work_outcome
    (utf16_from_utf8 : string -> wstring)
    (trim_whitespace : wstring -> wstring) (stream : nat)
    (fault : option HRESULT) (asyncBlock : AsyncBlock) (h : nat) (w : world)
    (ws : HC_WEBSOCKET) (task : winrt_websocket_impl)
    (Htrim : trim_whitespace [] = [])
    (Hws : sockets w !! h = Some ws)
    (Himpl : impl ws = Some task) :
  exists w',
    WebsocketConnectDoWork utf16_from_utf8 trim_whitespace stream fault
      asyncBlock (Some h) w
      = Some (match fault with Some code => code | None => E_PENDING end, w')
    /\ connect_ops w' =
         connect_ops w
           ++ match fault with Some _ => [] | None => [(asyncBlock, h)] end
    /\ get_impl w' h =
         Some (set_context (Some h)
                 (set_socket
                    (Some (configured ws
                             (spec_subprotocols trim_whitespace
                                (c_str (utf16_from_utf8 (subProtocol ws))))
                             stream)) task))
    /\ queue_of w' h = queue_of w h
    /\ (forall h', h <> h' -> sockets w' !! h' = sockets w !! h')
    /\ singleton w' = singleton w
    /\ ptr_cache w' = ptr_cache w
    /\ task_queue w' = task_queue w
    /\ store_ops w' = store_ops w
    /\ completions w' = completions w.
Proof.
  pose proof (connect_work_shape utf16_from_utf8 trim_whitespace Htrim stream
                fault asyncBlock h w ws task Hws Himpl) as Hshape.
  cbv zeta in Hshape.
  set (f := fun t => set_context (Some h) (set_socket _ t)) in Hshape.
  assert (Hget : get_impl (update_impl h f w) h = Some (f task)).
  { rewrite get_impl_update_impl. unfold get_impl. rewrite Hws, Himpl.
    reflexivity. }
  assert (Hq : queue_of (update_impl h f w) h = queue_of w h)
    by (apply queue_of_update_impl; reflexivity).
  assert (Hframe : forall h', h <> h' ->
            sockets (update_impl h f w) !! h' = sockets w !! h')
    by (intros h' Hne; apply sockets_update_impl_ne; exact Hne).
  destruct fault as [code|]; eexists; (split; [exact Hshape|]); simpl.
  - rewrite app_nil_r. repeat split; assumption.
  - repeat split; assumption.
Qed.

Lemma connect_work_outcome_witness :
  exists w',
    WebsocketConnectDoWork widen trim_surrounding_whitespace 2
      (Some E_FAIL) 100%nat (Some 7%nat) lowercase_header_world
      = Some (E_FAIL, w')
    /\ connect_ops w' = []
    /\ option_map requestHeaders (transport_of w' 7)
       = Some [("Host", "host"); ("X-Token", "t")]%string.
Proof.
  edestruct connect_work_outcome
    with (utf16_from_utf8 := widen)
         (trim_whitespace := trim_surrounding_whitespace) (stream := 2%nat)
         (fault := Some E_FAIL) (asyncBlock := 100%nat) (h := 7%nat)
         (w := lowercase_header_world)
    as [w' [H1 [H2 [H3 _]]]].
  - reflexivity.
  - vm_compute. reflexivity.
  - vm_compute. reflexivity.
  - exists w'. split; [exact H1|]. split; [exact H2|].
    unfold transport_of. rewrite H3. vm_compute. reflexivity.
Defined.

(** X11. Connecting again starts from a fresh transport: after a
    connect, a Disconnect and a second connect, the session's transport
    holds the headers and sub-protocols once, not twice, and no close
    request. *)
Theorem reconnect_resets_transport
    (utf16_from_utf8 : string -> wstring)
    (trim_whitespace : wstring -> wstring) (stream stream' : nat)
    (fault fault' : option HRESULT) (asyncBlock asyncBlock' : AsyncBlock)
    (closeStatus : Z) (h : nat) (w : world)
    (ws : HC_WEBSOCKET) (task : winrt_websocket_impl)
    (Htrim : trim_whitespace [] = [])
    (Hws : sockets w !! h = Some ws)
    (Himpl : impl ws = Some task) :
  exists hr1 w1 w2 hr3 w3,
    WebsocketConnectDoWork utf16_from_utf8 trim_whitespace stream fault
      asyncBlock (Some h) w = Some (hr1, w1)
    /\ Internal_HCWebSocketDisconnect (Some h) closeStatus w1
       = Some (S_OK, w2)
    /\ option_map closeRequest (transport_of w2 h)
       = Some (Some (closeStatus mod 2 ^ 16, []))
    /\ WebsocketConnectDoWork utf16_from_utf8 trim_whitespace stream' fault'
         asyncBlock' (Some h) w2 = Some (hr3, w3)
    /\ transport_of w3 h =
         Some (configured ws
                 (spec_subprotocols trim_whitespace
                    (c_str (utf16_from_utf8 (subProtocol ws)))) stream').
Proof.
  set (protocols := spec_subprotocols trim_whitespace
                      (c_str (utf16_from_utf8 (subProtocol ws)))).
  pose proof (connect_work_shape utf16_from_utf8 trim_whitespace Htrim stream
                fault asyncBlock h w ws task Hws Himpl) as H1.
  cbv zeta in H1. fold protocols in H1.
  set (f := fun t => set_context (Some h) (set_socket _ t)) in H1.
  set (w1 := match fault with
             | Some _ => update_impl h f w
             | None => set_connect_ops (connect_ops w ++ [(asyncBlock, h)])
                         (update_impl h f w)
             end).
  assert (H1' : exists hr1,
            WebsocketConnectDoWork utf16_from_utf8 trim_whitespace stream
              fault asyncBlock (Some h) w = Some (hr1, w1)).
  { rewrite H1. subst w1. destruct fault; eauto. }
  destruct H1' as [hr1 H1'].
  assert (Hws1 : sockets w1 !! h = Some (set_impl (Some (f task)) ws)).
  { subst w1. destruct fault; simpl;
      rewrite lookup_alter_eq, Hws; simpl; rewrite Himpl; reflexivity. }
  set (ws1 := set_impl (Some (f task)) ws) in Hws1.
  set (g := set_socket
              (Some (Close (closeStatus mod 2 ^ 16) []
                       (configured ws protocols stream)))).
  assert (H2 : Internal_HCWebSocketDisconnect (Some h) closeStatus w1
               = Some (S_OK, update_impl h g w1)).
  { unfold Internal_HCWebSocketDisconnect. rewrite Hws1. reflexivity. }
  assert (Hws2 : sockets (update_impl h g w1) !! h
                 = Some (set_impl (Some (g (f task))) ws1)).
  { rewrite (lookup_update_impl h g w1 ws1 Hws1). reflexivity. }
  pose proof (connect_work_shape utf16_from_utf8 trim_whitespace Htrim stream'
                fault' asyncBlock' h (update_impl h g w1)
                (set_impl (Some (g (f task))) ws1) (g (f task))
                Hws2 eq_refl) as H3.
  cbv zeta in H3.
  change (connectHeaders (set_impl _ ws1)) with (connectHeaders ws) in H3.
  exists hr1, w1, (update_impl h g w1).
  destruct fault' as [code'|];
    (do 2 eexists; split; [exact H1'|]; split; [exact H2|];
     split;
     [unfold transport_of; rewrite get_impl_update_impl;
      unfold get_impl; rewrite Hws1; reflexivity|];
     split; [exact H3|]).
  - unfold transport_of. rewrite get_impl_update_impl.
    unfold get_impl. rewrite Hws2. reflexivity.
  - unfold transport_of.
    change (get_impl (set_connect_ops ?q ?x) h) with (get_impl x h).
    rewrite get_impl_update_impl.
    unfold get_impl. rewrite Hws2. reflexivity.
Qed.

Lemma reconnect_resets_transport_witness :
  exists hr1 w1 w2 hr3 w3,
    WebsocketConnectDoWork widen trim_surrounding_whitespace 1 None
      100%nat (Some 7%nat) lowercase_header_world = Some (hr1, w1)
    /\ Internal_HCWebSocketDisconnect (Some 7%nat) 1000 w1 = Some (S_OK, w2)
    /\ WebsocketConnectDoWork widen trim_surrounding_whitespace 2 None
         101%nat (Some 7%nat) w2 = Some (hr3, w3)
    /\ transport_of w3 7 =
         Some {| requestHeaders := [("Host", "host"); ("X-Token", "t")]%string;
                 supportedProtocols := [widen "chat"; widen "superchat"];
                 outputStream := 2;
                 closeRequest := None |}.
Proof.
  edestruct reconnect_resets_transport
    with (utf16_from_utf8 := widen)
         (trim_whitespace := trim_surrounding_whitespace)
         (stream := 1%nat) (stream' := 2%nat)
         (fault := @None HRESULT) (fault' := @None HRESULT)
         (asyncBlock := 100%nat) (asyncBlock' := 101%nat)
         (closeStatus := 1000) (h := 7%nat) (w := lowercase_header_world)
    as [hr1 [w1 [w2 [hr3 [w3 [H1 [H2 [_ [H4 H5]]]]]]]]].
  - reflexivity.
  - vm_compute. reflexivity.
  - vm_compute. reflexivity.
  - exists hr1, w1, w2, hr3, w3.
    split; [exact H1|]. split; [exact H2|]. split; [exact H4|].
    rewrite H5. vm_compute. reflexivity.
Defined.

(** ** From the connect completion to the result *)

Lemma connect_result_of (h : nat) (w : world) (task : winrt_websocket_impl) :
  get_impl w h = Some task ->
  WebsocketConnectGetResult (Some h) w =
    Some (S_OK,
          {| websocket := Some h;
             errorCode := generic_status (m_connectAsyncOpResult task);
             platformErrorCode := m_connectAsyncOpResult task |}).
Proof.
  intros Htask. unfold WebsocketConnectGetResult, get_impl in *. simpl.
  destruct (sockets w !! h) as [ws|]; [|discriminate].
  rewrite Htask. reflexivity.
Qed.

Lemma connect_completed_shape (asyncBlock : AsyncBlock) (h : nat)
    (status : AsyncStatus) (acquire : option exn) (w : world)
    (task : winrt_websocket_impl) (s : MessageWebSocket) :
  get_impl w h = Some task -> m_messageWebSocket task = Some s ->
  exists w',
    connect_completed asyncBlock h status acquire w = Some (Normal w')
    /\ completions w' = completions w ++ [(asyncBlock, S_OK)]
    /\ get_impl w' h =
         Some (set_connect_result (connect_code status acquire)
                 (match acquire with
                  | None =>
                    set_writer (new_DataWriter (Some (outputStream s))) task
                  | Some _ => task
                  end)).
Proof.
  intros Htask Hs. unfold connect_completed. rewrite Htask, Hs.
  eexists. split; [reflexivity|]. split; [reflexivity|].
  change (get_impl (CompleteAsync ?b ?r ?x) h) with (get_impl x h).
  rewrite get_impl_update_impl, Htask.
  destruct acquire as [[code|]|]; reflexivity.
Qed.

(** X12. After the completion handler of the connect operation has run,
    the result retrieval reports the stored code as platform code and
    the generic status derived from it.  The code is a failure only for
    the status [Error] or an exception of the writer acquisition: a
    connect operation that ends as [Canceled] is reported as a success,
    and an exception's code takes precedence over the status. *)
Theorem connect_result_after_completion
    (asyncBlock : AsyncBlock) (h : nat) (status : AsyncStatus)
    (acquire : option exn) (w : world)
    (task : winrt_websocket_impl) (s : MessageWebSocket)
    (Htask : get_impl w h = Some task)
    (Hs : m_messageWebSocket task = Some s) :
  exists w',
    connect_completed asyncBlock h status acquire w = Some (Normal w')
    /\ WebsocketConnectGetResult (Some h) w' =
         Some (S_OK,
               {| websocket := Some h;
                  errorCode := generic_status (connect_code status acquire);
                  platformErrorCode := connect_code status acquire |})
    /\ (acquire = None ->
        (generic_status (connect_code status acquire) = E_FAIL
         <-> status = Error))
    /\ (forall code, acquire = Some (hresult_error code) ->
        connect_code status acquire = code).
Proof.
  destruct (connect_completed_shape asyncBlock h status acquire w task s
              Htask Hs) as [w' [H1 [_ H3]]].
  exists w'. split; [exact H1|].
  split; [rewrite (connect_result_of h w' _ H3); reflexivity|].
  split.
  - intros ->. unfold connect_code.
    destruct (decide (status = Error)) as [Herr|Hok]; split; intros Hx;
      try reflexivity; try assumption; try contradiction.
    vm_compute in Hx. discriminate.
  - intros code ->. reflexivity.
Qed.

Lemma connect_result_after_completion_witness :
  exists w',
    connect_completed 100%nat 7%nat Canceled None connecting_world
      = Some (Normal w')
    /\ WebsocketConnectGetResult (Some 7%nat) w' =
         Some (S_OK, {| websocket := Some 7%nat; errorCode := S_OK;
                        platformErrorCode := S_OK |}).
Proof.
  edestruct connect_result_after_completion
    with (asyncBlock := 100%nat) (h := 7%nat) (status := Canceled)
         (acquire := @None exn) (w := connecting_world)
    as [w' [H1 [H2 _]]].
  - vm_compute. reflexivity.
  - vm_compute. reflexivity.
  - exists w'. split; [exact H1 | exact H2].
Defined.

(** ** The Connect call *)

Lemma connect_call_shape
    (BeginAsync ScheduleAsync : AsyncBlock -> HRESULT)
    (stream : nat) (address protocolText : string) (h : nat)
    (asyncBlock : AsyncBlock) (w : world) (ws : HC_WEBSOCKET) :
  sockets w !! h = Some ws ->
  exists hr w' item,
    Internal_HCWebSocketConnectAsync BeginAsync ScheduleAsync stream
      address protocolText (Some h) asyncBlock w = Some (hr, w', item)
    /\ (hr = S_OK <->
        BeginAsync asyncBlock = S_OK /\ ScheduleAsync asyncBlock = S_OK)
    /\ (hr = S_OK -> item = Some (asyncBlock, Some h))
    /\ (hr <> S_OK -> item = None)
    /\ sockets w' !! h =
         Some {| id := id ws; uri := address; subProtocol := protocolText;
                 connectHeaders := connectHeaders ws;
                 impl := Some (new_impl stream (Some h)) |}
    /\ queue_of w' h = []
    /\ (forall h', h <> h' -> sockets w' !! h' = sockets w !! h')
    /\ singleton w' = singleton w
    /\ ptr_cache w' = ptr_cache w
    /\ task_queue w' = task_queue w
    /\ store_ops w' = store_ops w
    /\ connect_ops w' = connect_ops w
    /\ completions w' = completions w.
Proof.
  intros Hws.
  unfold Internal_HCWebSocketConnectAsync. simpl. rewrite Hws.
  set (ws' := {| id := id ws; uri := address; subProtocol := protocolText;
                 connectHeaders := connectHeaders ws;
                 impl := Some (new_impl stream (Some h)) |}).
  set (w' := set_sockets (<[h := ws']> (sockets w)) w).
  assert (Hws' : sockets w' !! h = Some ws') by apply lookup_insert_eq.
  assert (Hq : queue_of w' h = []).
  { unfold queue_of, get_impl. rewrite Hws'. reflexivity. }
  assert (Hframe : forall h', h <> h' -> sockets w' !! h' = sockets w !! h').
  { intros h' Hne. subst w'. simpl. apply lookup_insert_ne. exact Hne. }
  destruct (decide (BeginAsync asyncBlock = S_OK)) as [Hb|Hb].
  - destruct (decide (ScheduleAsync asyncBlock = S_OK)) as [Hc|Hc].
    + do 3 eexists. split; [reflexivity|].
      split; [tauto|]. split; [reflexivity|]. split; [congruence|].
      repeat split; assumption.
    + do 3 eexists. split; [reflexivity|].
      split; [tauto|]. split; [congruence|]. split; [reflexivity|].
      repeat split; assumption.
  - do 3 eexists. split; [reflexivity|].
    split; [tauto|]. split; [congruence|]. split; [reflexivity|].
    repeat split; assumption.
Qed.

(** X13. On a session for which no send or connect operation is under
    way, Connect records the address and the sub-protocol text and
    replaces the session's implementation object with a fresh one before
    it turns to the scheduler.  So whatever the scheduler answers, the
    session has an empty queue and a new transport afterwards and its
    headers are kept; every other session, the work items, the store
    operations and the completions are as before, and still none of them
    is an operation of this session.  The call answers [S_OK] exactly
    when both scheduler calls do, and a work item exists exactly then. *)
Theorem connect_call_outcome
    (BeginAsync ScheduleAsync : AsyncBlock -> HRESULT)
    (stream : nat) (address protocolText : string) (h : nat)
    (asyncBlock : AsyncBlock) (w : world) (ws : HC_WEBSOCKET)
    (Hws : sockets w !! h = Some ws)
    (Hquiet : quiescent h w = true) :
  exists hr w' item,
    Internal_HCWebSocketConnectAsync BeginAsync ScheduleAsync stream
      address protocolText (Some h) asyncBlock w = Some (hr, w', item)
    /\ (hr = S_OK <->
        BeginAsync asyncBlock = S_OK /\ ScheduleAsync asyncBlock = S_OK)
    /\ (hr = S_OK -> item = Some (asyncBlock, Some h))
    /\ (hr <> S_OK -> item = None)
    /\ sockets w' !! h =
         Some {| id := id ws; uri := address; subProtocol := protocolText;
                 connectHeaders := connectHeaders ws;
                 impl := Some (new_impl stream (Some h)) |}
    /\ queue_of w' h = []
    /\ (forall h', h <> h' -> sockets w' !! h' = sockets w !! h')
    /\ singleton w' = singleton w
    /\ ptr_cache w' = ptr_cache w
    /\ task_queue w' = task_queue w
    /\ store_ops w' = store_ops w
    /\ connect_ops w' = connect_ops w
    /\ completions w' = completions w
    /\ quiescent h w' = true.
Proof.
  destruct (connect_call_shape BeginAsync ScheduleAsync stream address
              protocolText h asyncBlock w ws Hws)
    as [hr [w' [item [H1 [H2 [H3 [H4 [H5 [H6 [H7 [H8 [H9 [H10 [H11
         [H12 H13]]]]]]]]]]]]]]].
  exists hr, w', item.
  repeat (split; [assumption|]).
  unfold quiescent, names_session in *.
  rewrite H9, H10, H11, H12. exact Hquiet.
Qed.

Lemma connect_call_outcome_witness :
  quiescent 7 after_failed_send = true
  /\ exists w' ws',
       Internal_HCWebSocketConnectAsync (fun _ => E_FAIL) always_ok 2
         "wss://other/path" "chat" (Some 7%nat) 103%nat after_failed_send
         = Some (E_FAIL, w', None)
       /\ sockets w' !! 7%nat = Some ws'
       /\ uri ws' = "wss://other/path"%string
       /\ queue_of w' 7 = []
       /\ completions w' = completions after_failed_send.
Proof.
  split; [vm_compute; reflexivity|].
  edestruct connect_call_outcome
    with (BeginAsync := fun _ : AsyncBlock => E_FAIL)
         (ScheduleAsync := always_ok) (stream := 2%nat)
         (address := "wss://other/path"%string) (protocolText := "chat"%string)
         (h := 7%nat) (asyncBlock := 103%nat) (w := after_failed_send)
    as [hr [w' [item [H1 [_ [_ [_ [H5 [H6 [_ [_ [_ [_ [_ [_ [H13 _]]]]]]]]]]]]]]]].
  - vm_compute. reflexivity.
  - vm_compute. reflexivity.
  - exists w'. eexists.
    split; [|split; [exact H5|split; [reflexivity|split; [exact H6|exact H13]]]].
    rewrite H1. vm_compute in H1. injection H1 as <- <- <-.
    vm_compute. reflexivity.
Defined.

(** X14. The connect life cycle, end to end.  When the scheduler accepts
    the work item, [ConnectAsync] starts without raising and the writer
    can be acquired, a Connect call followed by its work item and by the
    completion of the transport's open operation leaves the session with
    the transport configured from its headers and the sub-protocol text
    of the call, a writer on that transport's output stream, an empty
    queue, exactly one completion of the caller's operation, and a result
    whose status is [E_FAIL] for the status [Error] and [S_OK] for any
    other. *)
Theorem connect_life_cycle
    (BeginAsync ScheduleAsync : AsyncBlock -> HRESULT)
    (utf16_from_utf8 : string -> wstring)
    (trim_whitespace : wstring -> wstring)
    (stream0 stream : nat) (address protocolText : string) (h : nat)
    (asyncBlock : AsyncBlock) (status : AsyncStatus)
    (w : world) (ws : HC_WEBSOCKET)
    (Htrim : trim_whitespace [] = [])
    (Hws : sockets w !! h = Some ws)
    (Hbegin : BeginAsync asyncBlock = S_OK)
    (Hschedule : ScheduleAsync asyncBlock = S_OK) :
  exists w1 w2 w3 task3,
    Internal_HCWebSocketConnectAsync BeginAsync ScheduleAsync stream0
      address protocolText (Some h) asyncBlock w
      = Some (S_OK, w1, Some (asyncBlock, Some h))
    /\ WebsocketConnectDoWork utf16_from_utf8 trim_whitespace stream None
         asyncBlock (Some h) w1 = Some (E_PENDING, w2)
    /\ connect_completed asyncBlock h status None w2 = Some (Normal w3)
    /\ WebsocketConnectGetResult (Some h) w3 =
         Some (S_OK,
               {| websocket := Some h;
                  errorCode := if decide (status = Error)
                               then E_FAIL else S_OK;
                  platformErrorCode := if decide (status = Error)
                                       then E_FAIL else S_OK |})
    /\ completions w3 = completions w ++ [(asyncBlock, S_OK)]
    /\ get_impl w3 h = Some task3
    /\ m_messageWebSocket task3 =
         Some (configured ws
                 (spec_subprotocols trim_whitespace
                    (c_str (utf16_from_utf8 protocolText))) stream)
    /\ m_messageDataWriter task3 = new_DataWriter (Some stream)
    /\ m_outgoingMessageQueue task3 = []
    /\ m_context task3 = Some h
    /\ m_websocketHandle task3 = Some h.
Proof.
  destruct (connect_call_shape BeginAsync ScheduleAsync stream0 address
              protocolText h asyncBlock w ws Hws)
    as [hr [w1 [item [H1 [Hok [Hitem [_ [Hws1 [_ [_ [_ [_ [_ [_ [_ Hc1]]]]]]]]]]]]]]].
  assert (Hhr : hr = S_OK) by (apply Hok; auto).
  subst hr. rewrite (Hitem eq_refl) in H1.
  set (ws1 := {| id := id ws; uri := address; subProtocol := protocolText;
                 connectHeaders := connectHeaders ws;
                 impl := Some (new_impl stream0 (Some h)) |}) in Hws1.
  pose proof (connect_work_shape utf16_from_utf8 trim_whitespace Htrim stream
                None asyncBlock h w1 ws1 (new_impl stream0 (Some h))
                Hws1 eq_refl) as H2.
  cbv zeta in H2.
  change (connectHeaders ws1) with (connectHeaders ws) in H2.
  change (subProtocol ws1) with protocolText in H2.
  set (s := configured _ _ stream) in H2.
  set (f := fun t => set_context (Some h) (set_socket (Some s) t)) in H2.
  set (w2 := set_connect_ops _ (update_impl h f w1)) in H2.
  assert (Htask2 : get_impl w2 h = Some (f (new_impl stream0 (Some h)))).
  { subst w2. change (get_impl (set_connect_ops ?q ?x) h) with (get_impl x h).
    rewrite get_impl_update_impl. unfold get_impl. rewrite Hws1. reflexivity. }
  destruct (connect_completed_shape asyncBlock h status None w2 _ s
              Htask2 eq_refl) as [w3 [H3 [Hc3 Htask3]]].
  exists w1, w2, w3. eexists.
  split; [exact H1|]. split; [exact H2|]. split; [exact H3|].
  split; [rewrite (connect_result_of h w3 _ Htask3); simpl;
          unfold generic_status; case_decide; reflexivity|].
  split; [rewrite Hc3; subst w2; simpl; rewrite Hc1; reflexivity|].
  split; [exact Htask3|].
  repeat split.
Qed.

Lemma connect_life_cycle_witness :
  exists w1 w2 w3 task3,
    Internal_HCWebSocketConnectAsync always_ok always_ok 1
      "wss://host/path" "chat, superchat" (Some 7%nat) 100%nat
      lowercase_header_world = Some (S_OK, w1, Some (100%nat, Some 7%nat))
    /\ WebsocketConnectDoWork widen trim_surrounding_whitespace 2 None
         100%nat (Some 7%nat) w1 = Some (E_PENDING, w2)
    /\ connect_completed 100%nat 7%nat Completed None w2 = Some (Normal w3)
    /\ WebsocketConnectGetResult (Some 7%nat) w3 =
         Some (S_OK, {| websocket := Some 7%nat; errorCode := S_OK;
                        platformErrorCode := 0 |})
    /\ get_impl w3 7 = Some task3
    /\ option_map supportedProtocols (m_messageWebSocket task3)
       = Some [widen "chat"; widen "superchat"].
Proof.
  edestruct connect_life_cycle
    with (BeginAsync := always_ok) (ScheduleAsync := always_ok)
         (utf16_from_utf8 := widen)
         (trim_whitespace := trim_surrounding_whitespace)
         (stream0 := 1%nat) (stream := 2%nat)
         (address := "wss://host/path"%string)
         (protocolText := "chat, superchat"%string) (h := 7%nat)
         (asyncBlock := 100%nat) (status := Completed)
         (w := lowercase_header_world)
    as [w1 [w2 [w3 [task3 [H1 [H2 [H3 [H4 [_ [H6 [H7 _]]]]]]]]]]].
  - reflexivity.
  - vm_compute. reflexivity.
  - reflexivity.
  - reflexivity.
  - exists w1, w2, w3, task3.
    split; [exact H1|]. split; [exact H2|]. split; [exact H3|].
    split; [exact H4|]. split; [exact H6|].
    rewrite H7. vm_compute. reflexivity.
Defined.

(** ** Events of a connected session *)

(** X15. Once [WebsocketConnectDoWork] has run for a session, the events
    of its transport are reported for that session: a received message
    with bytes reaches the message callback once, with the session's
    handle and those bytes, and a close reaches the close callback once,
    with the session's handle and the event's status code unchanged.
    An exception raised by the message callback stays inside
    [OnReceive]; one raised by the close callback leaves [OnClosed].
    Without a close callback [OnClosed] does nothing. *)
Theorem events_reach_the_session
    (utf16_from_utf8 : string -> wstring)
    (trim_whitespace : wstring -> wstring) (stream : nat)
    (fault : option HRESULT) (asyncBlock : AsyncBlock) (h : nat) (w : world)
    (ws : HC_WEBSOCKET) (task : winrt_websocket_impl)
    (Htrim : trim_whitespace [] = [])
    (Hws : sockets w !! h = Some ws)
    (Himpl : impl ws = Some task) :
  exists hr w' task',
    WebsocketConnectDoWork utf16_from_utf8 trim_whitespace stream fault
      asyncBlock (Some h) w = Some (hr, w')
    /\ get_impl w' h = Some task'
    /\ (forall bytes func_fault,
        bytes <> [] ->
        OnReceive (m_context task') true func_fault
          (Normal {| unconsumed := bytes; length_fault := None;
                     read_fault := None |})
        = ([(Some h, bytes)], Normal tt))
    /\ (forall code func_fault,
        OnClosed (m_context task') true func_fault (Normal code)
        = ([(Some h, code)],
           match func_fault with
           | None => Normal tt
           | Some e => Throw e
           end))
    /\ (forall code func_fault,
        OnClosed (m_context task') false func_fault code = ([], Normal tt)).
Proof.
  pose proof (connect_work_shape utf16_from_utf8 trim_whitespace Htrim stream
                fault asyncBlock h w ws task Hws Himpl) as Hshape.
  cbv zeta in Hshape.
  set (f := fun t => set_context (Some h) (set_socket _ t)) in Hshape.
  assert (Hget : get_impl (update_impl h f w) h = Some (f task)).
  { rewrite get_impl_update_impl. unfold get_impl. rewrite Hws, Himpl.
    reflexivity. }
  assert (Hrun : exists hr w',
            WebsocketConnectDoWork utf16_from_utf8 trim_whitespace stream
              fault asyncBlock (Some h) w = Some (hr, w')
            /\ get_impl w' h = Some (f task)).
  { rewrite Hshape. destruct fault; do 2 eexists; split;
      try reflexivity; exact Hget. }
  destruct Hrun as [hr [w' [Hrun Hget']]].
  exists hr, w', (f task).
  split; [exact Hrun|]. split; [exact Hget'|].
  split; [|split].
  - intros bytes func_fault Hbytes.
    unfold OnReceive, OnReceive_try, UnconsumedBufferLength, ReadBytes.
    simpl.
    destruct bytes as [|b bs]; [congruence|].
    change (0 <? length (b :: bs))%nat with true. cbv iota.
    rewrite Nat.leb_refl, firstn_all. reflexivity.
  - intros code func_fault. destruct func_fault; reflexivity.
  - intros code func_fault. reflexivity.
Qed.

Lemma events_reach_the_session_witness :
  exists hr w' task',
    WebsocketConnectDoWork widen trim_surrounding_whitespace 1 None
      100%nat (Some 7%nat) open_world = Some (hr, w')
    /\ get_impl w' 7 = Some task'
    /\ OnReceive (m_context task') true (Some other_exception)
         (Normal {| unconsumed := [x68; x69]; length_fault := None;
                    read_fault := None |})
       = ([(Some 7%nat, [x68; x69])], Normal tt)
    /\ OnClosed (m_context task') true (Some other_exception) (Normal 1000)
       = ([(Some 7%nat, 1000)], Throw other_exception).
Proof.
  edestruct events_reach_the_session
    with (utf16_from_utf8 := widen)
         (trim_whitespace := trim_surrounding_whitespace) (stream := 1%nat)
         (fault := @None HRESULT) (asyncBlock := 100%nat) (h := 7%nat)
         (w := open_world)
    as [hr [w' [task' [H1 [H2 [H3 [H4 _]]]]]]].
  - reflexivity.
  - vm_compute. reflexivity.
  - vm_compute. reflexivity.
  - exists hr, w', task'. split; [exact H1|]. split; [exact H2|].
    split; [apply H3; discriminate | apply H4].
Defined.

(** ** Identifiers along a burst *)

Lemma omap_agree {A B : Type} (f g : A -> option B) (l : list A) :
  (forall x, x ∈ l -> f x = g x) -> omap f l = omap g l.
Proof.
  induction l as [|a l IH]; intros Hfg; [reflexivity|].
  change (omap f (a :: l))
    with (match f a with Some y => y :: omap f l | None => omap f l end).
  change (omap g (a :: l))
    with (match g a with Some y => y :: omap g l | None => omap g l end).
  rewrite (Hfg a) by (left; reflexivity).
  rewrite IH; [reflexivity|].
  intros x Hx. apply Hfg. right. exact Hx.
Qed.

Lemma next_id_small (c : Z) : 0 <= c -> c + 1 < 2 ^ 64 -> next_id c = c + 1.
Proof. intros H0 H1. unfold next_id. apply Z.mod_small. lia. Qed.

(** Without wrap-around the identifiers of the records of a burst lie
    above the counter's earlier value and grow along the burst. *)
Lemma expected_records_ids (msgs : list (string * AsyncBlock)) :
  forall c, 0 <= c -> c + Z.of_nat (length msgs) < 2 ^ 64 ->
  Forall (fun r => c < m_id r <= c + Z.of_nat (length msgs))
         (expected_records c msgs)
  /\ StronglySorted Z.lt (List.map m_id (expected_records c msgs)).
Proof.
  induction msgs as [|[text b] msgs IH]; intros c H0 Hn.
  - split; constructor.
  - cbn [expected_records length] in *.
    rewrite next_id_small by lia.
    destruct (IH (c + 1)) as [Hrange Hsorted]; [lia | lia |].
    assert (Hrange' :
      Forall (fun r => c < m_id r <= c + Z.of_nat (S (length msgs)))
             (expected_records (c + 1) msgs)).
    { eapply List.Forall_impl; [|exact Hrange]. simpl. intros r Hr. lia. }
    destruct (String.length text =? 0)%nat; simpl.
    + split; assumption.
    + split.
      * constructor; [simpl; lia | exact Hrange'].
      * constructor; [exact Hsorted|].
        apply List.Forall_forall. intros x Hx.
        apply in_map_iff in Hx. destruct Hx as [r [<- Hr]].
        rewrite List.Forall_forall in Hrange.
        specialize (Hrange r Hr). lia.
Qed.

Lemma dispatched_after_send (w w1 : world) (ctx : SendMessageCallbackContent)
    (b : AsyncBlock) :
  allocated w ->
  ptr_cache w1 = <[next_raw w := ctx]> (ptr_cache w) ->
  task_queue w1 = task_queue w ++ [(b, next_raw w)] ->
  dispatched w1 = dispatched w ++ [nextMessage ctx].
Proof.
  intros Halloc Hcache Htq. unfold dispatched.
  rewrite Htq, omap_app, Hcache. simpl. rewrite lookup_insert_eq. simpl.
  f_equal. apply omap_agree. intros [b' raw] Hin. simpl.
  rewrite lookup_insert_ne; [reflexivity|].
  specialize (Halloc b' raw Hin). lia.
Qed.

(** X16. In a burst of sends of non-null messages on a session with an
    empty queue, the n-th call takes the n-th identifier after the
    counter's value whether its message is empty or not; the records
    handed to the scheduler are those of the non-empty messages, in call
    order, with the identifiers their calls took.  Short of the
    wrap-around at 2^64 these identifiers grow strictly along the burst
    and the counter ends at its earlier value plus the number of calls. *)
Theorem burst_identifiers (h : nat) (msgs : list (string * AsyncBlock))
    (w : world) (s : http_singleton) (task : winrt_websocket_impl)
    (Hs : singleton w = Some s)
    (Htask : get_impl w h = Some task)
    (Hq : m_outgoingMessageQueue task = [])
    (Halloc : allocated w) :
  exists w',
    run always_ok always_ok (sends h msgs) w = Some w'
    /\ dispatched w' = dispatched w ++ expected_records (m_lastId s) msgs
    /\ singleton w'
       = Some {| m_lastId := Nat.iter (length msgs) next_id (m_lastId s) |}
    /\ (0 <= m_lastId s ->
        m_lastId s + Z.of_nat (length msgs) < 2 ^ 64 ->
        StronglySorted Z.lt
          (List.map m_id (expected_records (m_lastId s) msgs))
        /\ Nat.iter (length msgs) next_id (m_lastId s)
           = m_lastId s + Z.of_nat (length msgs)).
Proof.
  assert (Hmain : exists w',
            run always_ok always_ok (sends h msgs) w = Some w'
            /\ dispatched w' = dispatched w ++ expected_records (m_lastId s) msgs
            /\ singleton w'
               = Some {| m_lastId :=
                           Nat.iter (length msgs) next_id (m_lastId s) |}).
  { revert w s task Hs Htask Hq Halloc.
    induction msgs as [|[text b] msgs IH]; intros w s task Hs Htask Hq Halloc.
    - exists w. simpl. rewrite app_nil_r. destruct s. auto.
    - assert (Hws : exists ws, sockets w !! h = Some ws /\ impl ws = Some task).
      { unfold get_impl in Htask.
        destruct (sockets w !! h) as [ws|]; [eauto | discriminate]. }
      destruct Hws as [ws [Hws Himpl]].
      cbn [sends List.map run step fst snd expected_records length].
      rewrite Nat.iter_succ_r.
      destruct (String.length text =? 0)%nat eqn:Hlen.
      + (* an empty message: rejected, one identifier taken *)
        apply Nat.eqb_eq, length_zero_empty in Hlen. subst text.
        rewrite (send_empty_initialised always_ok always_ok w (Some h) b s ws
                   Hs Hws).
        cbn [option_map snd].
        set (w1 := set_singleton _ w).
        destruct (IH w1 {| m_lastId := next_id (m_lastId s) |} task)
          as [w' [Hrun [Hd Hc]]]; try assumption; try reflexivity.
        exists w'. split; [exact Hrun|]. split; [exact Hd | exact Hc].
      + (* a non-empty message: dispatched with the identifier taken *)
        assert (Htext : text <> EmptyString) by (intros ->; discriminate).
        destruct (send_accepted always_ok always_ok w h s ws task text b
                    Hs Hws Himpl Htext)
          as [w1 [Hsend [Hs1 [_ [_ [[task1 Htask1] Hshape]]]]]].
        rewrite Hq in Hshape.
        destruct Hshape as [Hq1 [Hcache [Hraw Htq]]].
        rewrite decide_True in Htq by (split; reflexivity).
        rewrite Hsend. cbn [option_map snd].
        assert (Hq1' : m_outgoingMessageQueue task1 = []).
        { unfold queue_of in Hq1. rewrite Htask1 in Hq1. exact Hq1. }
        assert (Halloc1 : allocated w1).
        { intros b' raw Hin. rewrite Htq in Hin. rewrite Hraw.
          apply elem_of_app in Hin. destruct Hin as [Hin|Hin].
          - specialize (Halloc b' raw Hin). lia.
          - apply list_elem_of_singleton in Hin.
            injection Hin as _ ->. lia. }
        destruct (IH w1 {| m_lastId := next_id (m_lastId s) |} task1
                    Hs1 Htask1 Hq1' Halloc1) as [w' [Hrun [Hd Hc]]].
        exists w'. split; [exact Hrun|]. split; [|exact Hc].
        rewrite Hd, (dispatched_after_send w w1 _ b Halloc Hcache Htq).
        simpl. rewrite <- app_assoc. reflexivity. }
  destruct Hmain as [w' [Hrun [Hd Hc]]].
  exists w'. split; [exact Hrun|]. split; [exact Hd|]. split; [exact Hc|].
  intros H0 Hn. split.
  - apply expected_records_ids; assumption.
  - clear -H0 Hn. induction (length msgs) as [|n IH].
    + simpl. lia.
    + simpl. rewrite IH by lia. rewrite next_id_small by lia. lia.
Qed.

Lemma allocated_open_world : allocated open_world.
Proof. intros b raw Hin. simpl in Hin. apply elem_of_nil in Hin. contradiction. Qed.

Lemma burst_identifiers_witness :
  exists w',
    run always_ok always_ok (sends 7 burst_with_gap) open_world = Some w'
    /\ List.map (fun r => (m_message r, m_id r)) (dispatched w')
       = [("A", 1); ("C", 3)]%string
    /\ singleton w' = Some {| m_lastId := 3 |}.
Proof.
  edestruct burst_identifiers
    with (h := 7%nat) (msgs := burst_with_gap) (w := open_world)
    as [w' [H1 [H2 [H3 _]]]].
  - vm_compute. reflexivity.
  - vm_compute. reflexivity.
  - reflexivity.
  - exact allocated_open_world.
  - exists w'. split; [exact H1|].
    split; [rewrite H2; vm_compute; reflexivity|].
    rewrite H3. vm_compute. reflexivity.
Defined.

(** ** Completions *)

Lemma step_completions
    (BeginAsync ScheduleAsync : AsyncBlock -> HRESULT)
    (e : event) (w w' : world) :
  step BeginAsync ScheduleAsync e w = Some w' ->
  exists new,
    completions w' = completions w ++ new
    /\ List.map snd new = delivered_codes [e].
Proof.
  intros Hstep.
  destruct e as [websocket message b|i fault|i status results];
    simpl in Hstep.
  - destruct (Internal_HCWebSocketSendMessageAsync _ _ _ _ _ _)
      as [[hr w1]|] eqn:Hsend; [|discriminate].
    injection Hstep as <-.
    destruct (send_frame _ _ _ _ _ _ _ _ Hsend) as [_ [_ [Hc _]]].
    exists []. rewrite app_nil_r. auto.
  - destruct (task_queue w !! i) as [[b raw]|]; [|discriminate].
    unfold WebsockSendMessageDoWork in Hstep. simpl in Hstep.
    exists []. rewrite app_nil_r. split; [|reflexivity].
    destruct (ptr_cache w !! raw) as [ctx|];
      [|injection Hstep as <-; reflexivity].
    destruct (get_impl _ _) as [task|]; [|discriminate].
    destruct fault; injection Hstep as <-; reflexivity.
  - destruct (store_ops w !! i) as [[b raw]|]; [|discriminate].
    unfold store_completed in Hstep. simpl in Hstep.
    destruct (ptr_cache w !! raw) as [ctx|]; [|discriminate].
    destruct (send_loop_frame _ _ _ _ _ Hstep) as [_ [_ [Hc _]]].
    exists [(b, store_code results)]. split; [|reflexivity].
    rewrite Hc. reflexivity.
Qed.

(** X17. Whatever the scheduler answers, the completions delivered to
    callers only grow: a run of events keeps those already delivered, in
    their order, and adds exactly one for every store completion of the
    run, in the order of these completions and with the code each one
    produced.  No send and no work item completes anything. *)
Theorem completions_only_grow
    (BeginAsync ScheduleAsync : AsyncBlock -> HRESULT)
    (es : list event) (w w' : world)
    (Hrun : run BeginAsync ScheduleAsync es w = Some w') :
  exists new,
    completions w' = completions w ++ new
    /\ List.map snd new = delivered_codes es.
Proof.
  revert w Hrun. induction es as [|e es IH]; intros w Hrun; simpl in Hrun.
  - injection Hrun as <-. exists []. rewrite app_nil_r. auto.
  - destruct (step BeginAsync ScheduleAsync e w) as [w1|] eqn:Hstep;
      [|discriminate].
    destruct (step_completions _ _ _ _ _ Hstep) as [new1 [Hc1 Hn1]].
    destruct (IH w1 Hrun) as [new2 [Hc2 Hn2]].
    exists (new1 ++ new2). split.
    + rewrite Hc2, Hc1, <- app_assoc. reflexivity.
    + rewrite List.map_app, Hn1, Hn2.
      unfold delivered_codes. simpl. rewrite app_nil_r. reflexivity.
Qed.

Lemma completions_only_grow_witness :
  exists w',
    run always_ok always_ok (two_sends ++ second_completes_first) open_world
      = Some w'
    /\ List.map snd (completions w') = [1; 1].
Proof.
  eexists. split; [vm_compute; reflexivity|].
  edestruct completions_only_grow
    with (BeginAsync := always_ok) (ScheduleAsync := always_ok)
         (es := two_sends ++ second_completes_first) (w := open_world)
    as [new [Hc Hn]]; [vm_compute; reflexivity|].
  rewrite Hc. simpl. rewrite Hn. vm_compute. reflexivity.
Defined.

(** ** SendMessage calls at the grain of the queue lock *)

(** A whole SendMessage call is its locked region followed, when
    [sendInProgress] is false, by the send loop. *)
Lemma send_split
    (BeginAsync ScheduleAsync : AsyncBlock -> HRESULT)
    (websocket : hc_websocket_handle_t) (message : option string)
    (asyncBlock : AsyncBlock) (w : world) :
  Internal_HCWebSocketSendMessageAsync BeginAsync ScheduleAsync
    websocket message asyncBlock w
  = match send_enter websocket message asyncBlock w with
    | None => None
    | Some (hr, w1, None) => Some (hr, w1)
    | Some (hr, w1, Some h) =>
      match MessageWebSocketSendMessage BeginAsync ScheduleAsync h w1 with
      | None => None
      | Some w3 => Some (hr, w3)
      end
    end.
Proof.
  unfold Internal_HCWebSocketSendMessageAsync, send_enter.
  destruct message as [text|]; [|reflexivity].
  destruct (singleton w) as [s|]; [|reflexivity].
  destruct websocket as [h|]; [|reflexivity].
  destruct (deref w (Some h)) as [ws|]; [|reflexivity].
  destruct (String.length text =? 0)%nat; [reflexivity|].
  destruct (impl ws) as [task|]; [|reflexivity].
  destruct (negb _); reflexivity.
Qed.

(** A run in which no call is overlapped is a run of whole calls. *)
Lemma serial_simulation
    (BeginAsync ScheduleAsync : AsyncBlock -> HRESULT)
    (es : list call_event) :
  forall (w : world) (pending : list nat) (w' : world),
  (length pending <= 1)%nat ->
  overlap_free BeginAsync ScheduleAsync es (w, pending) = true ->
  call_run BeginAsync ScheduleAsync es (w, pending) = Some (w', []) ->
  match pending with
  | [] => run BeginAsync ScheduleAsync (collapse es) w = Some w'
  | h :: _ =>
    exists wl,
      MessageWebSocketSendMessage BeginAsync ScheduleAsync h w = Some wl
      /\ run BeginAsync ScheduleAsync (collapse es) wl = Some w'
  end.
Proof.
  induction es as [|e es IH]; intros w pending w' Hlen Hfree Hrun.
  - simpl in Hrun. injection Hrun as Hw Hp. subst w' pending. reflexivity.
  - cbn [overlap_free call_run] in Hfree, Hrun.
    apply andb_true_iff in Hfree. destruct Hfree as [Hguard Hfree].
    destruct (call_step BeginAsync ScheduleAsync e (w, pending))
      as [[w1 pending1]|] eqn:Hstep; [|discriminate].
    destruct pending as [|h pending].
    + (* no call is due to start *)
      destruct e as [websocket message b|i|i fault|i status results];
        cbn [call_step fst snd] in Hstep.
      * pose proof (send_split BeginAsync ScheduleAsync websocket message b w)
          as Hsplit.
        destruct (send_enter websocket message b w) as [[[hr w2] [h|]]|];
          [| |discriminate]; injection Hstep as <- <-.
        -- specialize (IH w2 [h] w' ltac:(simpl; lia) Hfree Hrun).
           destruct IH as [wl [Hloop Hrest]].
           rewrite Hloop in Hsplit.
           cbn [collapse flat_map app run step]. rewrite Hsplit.
           exact Hrest.
        -- specialize (IH w2 [] w' ltac:(simpl; lia) Hfree Hrun).
           cbn [collapse flat_map app run step]. rewrite Hsplit.
           exact IH.
      * rewrite lookup_nil in Hstep. discriminate.
      * destruct (step BeginAsync ScheduleAsync (EvDoWork i fault) w)
          as [w2|] eqn:Hw; [|discriminate].
        injection Hstep as <- <-.
        specialize (IH w2 [] w' ltac:(simpl; lia) Hfree Hrun).
        cbn [collapse flat_map app run]. rewrite Hw. exact IH.
      * destruct (step BeginAsync ScheduleAsync
                    (EvStoreCompleted i status results) w)
          as [w2|] eqn:Hw; [|discriminate].
        injection Hstep as <- <-.
        specialize (IH w2 [] w' ltac:(simpl; lia) Hfree Hrun).
        cbn [collapse flat_map app run]. rewrite Hw. exact IH.
    + (* a call is due to start: it starts next *)
      destruct pending as [|h2 pending]; [|simpl in Hlen; lia].
      destruct e as [websocket message b|i|i fault|i status results];
        try discriminate.
      cbn [call_step fst snd] in Hstep.
      destruct i as [|i]; [|discriminate].
      cbn in Hstep.
      destruct (MessageWebSocketSendMessage BeginAsync ScheduleAsync h w)
        as [wl|] eqn:Hloop; [|discriminate].
      injection Hstep as <- <-.
      exists wl. split; [reflexivity|].
      exact (IH wl [] w' ltac:(simpl; lia) Hfree Hrun).
Qed.

(** X2. When no SendMessage call is overlapped by another call or by a
    handler (every call that is due to start sending calls the send loop
    before anything else happens), a process in which no session has a
    record waiting in its queue stays so, whatever the scheduler answers:
    the send loop takes each record off the queue in the call that put
    it there. *)
Theorem serial_calls_keep_queues_empty
    (BeginAsync ScheduleAsync : AsyncBlock -> HRESULT)
    (es : list call_event) (w w' : world)
    (Hidle : idle w)
    (Hserial : overlap_free BeginAsync ScheduleAsync es (w, []) = true)
    (Hrun : call_run BeginAsync ScheduleAsync es (w, []) = Some (w', [])) :
  idle w'.
Proof.
  pose proof (serial_simulation BeginAsync ScheduleAsync es w [] w'
                ltac:(simpl; lia) Hserial Hrun) as Hsim.
  simpl in Hsim. eapply run_idle; eassumption.
Qed.

Lemma serial_calls_keep_queues_empty_witness :
  exists w',
    call_run always_ok always_ok calls_in_turn (open_world, [])
      = Some (w', [])
    /\ idle w'.
Proof.
  eexists. split; [vm_compute; reflexivity|].
  eapply (serial_calls_keep_queues_empty always_ok always_ok calls_in_turn
            open_world).
  - exact idle_open_world.
  - vm_compute. reflexivity.
  - vm_compute. reflexivity.
Defined.

(** The condition on overlap is needed: when a second call runs its
    locked region before the first has called the send loop, the second
    record stays in the queue behind the first. *)
Lemma overlapping_calls_leave_a_record_queued :
  overlap_free always_ok always_ok overlapping_calls (open_world, []) = false
  /\ exists w',
       call_run always_ok always_ok overlapping_calls (open_world, [])
         = Some (w', [])
       /\ List.map m_message (queue_of w' 7) = ["B"%string]
       /\ List.map m_message (dispatched w') = ["A"%string].
Proof.
  split; [vm_compute; reflexivity|].
  eexists. split; [vm_compute; reflexivity|].
  split; vm_compute; reflexivity.
Qed.

(** ** Records move through the stages one at a time *)

Lemma step_stages (e : event) (w w' : world) :
  idle w -> tracked w -> is_Some (singleton w) ->
  fault_free e = true ->
  step always_ok always_ok e w = Some w' ->
  tracked w' /\ is_Some (singleton w')
  /\ (length (task_queue w') + works e
      = length (task_queue w) + accepted e)%nat
  /\ (length (store_ops w') + stores e
      = length (store_ops w) + works e)%nat
  /\ (length (completions w')
      = length (completions w) + stores e)%nat.
Proof.
  intros Hidle Htracked [s Hs] Hfree Hstep.
  destruct e as [websocket message b|i fault|i status results];
    simpl in Hstep.
  - (* a send *)
    destruct (Internal_HCWebSocketSendMessageAsync _ _ _ _ _ _)
      as [[hr w1]|] eqn:Hsend; [|discriminate].
    injection Hstep as <-.
    pose proof Hsend as Hsend'.
    unfold Internal_HCWebSocketSendMessageAsync in Hsend.
    destruct message as [text|].
    2: { injection Hsend as <- <-. simpl. rewrite Hs.
         split; [exact Htracked|]. split; [eauto|]. lia. }
    rewrite Hs in Hsend.
    destruct websocket as [h|]; [|discriminate].
    simpl in Hsend.
    destruct (sockets w !! h) as [ws|] eqn:Hws; [|discriminate].
    cbn [accepted works stores].
    destruct (String.length text =? 0)%nat eqn:Hlen.
    { injection Hsend as <- <-.
      split; [exact Htracked|]. split; [simpl; eauto|].
      simpl. lia. }
    destruct (impl ws) as [task|] eqn:Himpl; [|discriminate].
    assert (Htext : text <> EmptyString) by (intros ->; discriminate).
    destruct (send_accepted always_ok always_ok w h s ws task text b
                Hs Hws Himpl Htext)
      as [w'' [Hsend'' [Hs'' [Hst [Hc [_ Hshape]]]]]].
    rewrite Hsend'' in Hsend'. injection Hsend' as _ ->.
    assert (Hq : m_outgoingMessageQueue task = []).
    { specialize (Hidle h). unfold queue_of, get_impl in Hidle.
      rewrite Hws, Himpl in Hidle. exact Hidle. }
    rewrite Hq in Hshape. destruct Hshape as [_ [Hcache [_ Htq]]].
    rewrite decide_True in Htq by (split; reflexivity).
    split; [|split].
    + intros b' raw Hin. rewrite Htq in Hin. rewrite Hcache.
      apply lookup_insert_is_Some'.
      apply elem_of_app in Hin. destruct Hin as [Hin|Hin].
      * right. eapply Htracked. exact Hin.
      * left. apply list_elem_of_singleton in Hin. congruence.
    + rewrite Hs''. eauto.
    + rewrite Htq, Hst, Hc, length_app. simpl. lia.
  - (* a work item *)
    destruct (task_queue w !! i) as [[b raw]|] eqn:Hi; [|discriminate].
    destruct fault; [discriminate|].
    assert (Hin : (b, raw) ∈ task_queue w)
      by (eapply list_elem_of_lookup_2; exact Hi).
    destruct (Htracked b raw Hin) as [ctx Hctx].
    unfold WebsockSendMessageDoWork in Hstep. simpl in Hstep.
    rewrite Hctx in Hstep.
    destruct (get_impl _ _) as [task|]; [|discriminate].
    injection Hstep as <-.
    split; [|split].
    + intros b' raw' Hin'. simpl in *.
      apply Htracked with b'. eapply list_elem_of_delete_inv. exact Hin'.
    + simpl. rewrite Hs. eauto.
    + simpl. rewrite length_delete by eauto. rewrite length_app. simpl.
      apply lookup_lt_Some in Hi. lia.
  - (* a store completion *)
    destruct (store_ops w !! i) as [[b raw]|] eqn:Hi; [|discriminate].
    unfold store_completed in Hstep. simpl in Hstep.
    destruct (ptr_cache w !! raw) as [ctx|] eqn:Hctx; [|discriminate].
    apply send_loop_idle in Hstep; [|intros k; apply Hidle].
    subst w'.
    split; [|split].
    + intros b' raw' Hin'. simpl in *.
      apply lookup_insert_is_Some'. right. eapply Htracked. exact Hin'.
    + simpl. rewrite Hs. eauto.
    + simpl. rewrite length_delete by eauto. rewrite length_app. simpl.
      apply lookup_lt_Some in Hi. lia.
Qed.

Lemma list_sum_map_cons {A : Type} (f : A -> nat) (a : A) (l : list A) :
  list_sum (List.map f (a :: l)) = (f a + list_sum (List.map f l))%nat.
Proof. reflexivity. Qed.

Lemma run_stages (es : list event) :
  forall (w w' : world),
  idle w -> tracked w -> is_Some (singleton w) ->
  forallb fault_free es = true ->
  run always_ok always_ok es w = Some w' ->
  (length (task_queue w') + list_sum (List.map works es)
   = length (task_queue w) + list_sum (List.map accepted es))%nat
  /\ (length (store_ops w') + list_sum (List.map stores es)
      = length (store_ops w) + list_sum (List.map works es))%nat
  /\ (length (completions w')
      = length (completions w) + list_sum (List.map stores es))%nat.
Proof.
  induction es as [|e es IH]; intros w w' Hidle Htracked Hsingleton Hfree Hrun;
    simpl in Hfree, Hrun.
  - injection Hrun as <-. simpl. lia.
  - apply andb_true_iff in Hfree. destruct Hfree as [He Hes].
    destruct (step always_ok always_ok e w) as [w1|] eqn:Hstep;
      [|discriminate].
    destruct (step_stages e w w1 Hidle Htracked Hsingleton He Hstep)
      as [Ht1 [Hs1 [Ha [Hb Hc]]]].
    assert (Hidle1 : idle w1) by (eapply step_idle; eassumption).
    destruct (IH w1 w' Hidle1 Ht1 Hs1 Hes Hrun) as [Ha' [Hb' Hc']].
    rewrite !list_sum_map_cons. lia.
Qed.

(** X3. Take a run in which no SendMessage call is overlapped, the
    scheduler accepts every request and no store operation raises when
    it starts, from a state in which no record waits in a queue, every
    work item has its context and the library is initialised.  Then the
    records move through the stages one at a time: the work items grow by
    the accepted sends (non-null, non-empty) and shrink by the work items
    run, the store operations under way grow by the work items run and
    shrink by the store completions, and the completions grow by the
    store completions. *)
Theorem records_move_through_stages
    (es : list call_event) (w w' : world)
    (Hidle : idle w)
    (Htracked : tracked w)
    (Hsingleton : is_Some (singleton w))
    (Hfree : forallb fault_free (collapse es) = true)
    (Hserial : overlap_free always_ok always_ok es (w, []) = true)
    (Hrun : call_run always_ok always_ok es (w, []) = Some (w', [])) :
  (length (task_queue w') + count works es
   = length (task_queue w) + count accepted es)%nat
  /\ (length (store_ops w') + count stores es
      = length (store_ops w) + count works es)%nat
  /\ (length (completions w')
      = length (completions w) + count stores es)%nat.
Proof.
  pose proof (serial_simulation always_ok always_ok es w [] w'
                ltac:(simpl; lia) Hserial Hrun) as Hsim.
  simpl in Hsim.
  exact (run_stages (collapse es) w w' Hidle Htracked Hsingleton Hfree Hsim).
Qed.

Lemma records_move_through_stages_witness :
  exists w',
    call_run always_ok always_ok calls_in_turn (open_world, [])
      = Some (w', [])
    /\ length (task_queue w') = 0%nat
    /\ length (store_ops w') = 1%nat
    /\ length (completions w') = 1%nat.
Proof.
  eexists. split; [vm_compute; reflexivity|].
  edestruct (records_move_through_stages calls_in_turn open_world)
    as [Ha [Hb Hc]].
  - exact idle_open_world.
  - exact tracked_open_world.
  - vm_compute. eauto.
  - vm_compute. reflexivity.
  - vm_compute. reflexivity.
  - vm_compute. reflexivity.
  - change (count works calls_in_turn) with 2%nat in *.
    change (count accepted calls_in_turn) with 2%nat in *.
    change (count stores calls_in_turn) with 1%nat in *.
    change (length (task_queue open_world)) with 0%nat in *.
    change (length (store_ops open_world)) with 0%nat in *.
    change (length (completions open_world)) with 0%nat in *.
    repeat split; lia.
Defined.
